(** * vale-mcp-server: the invocation and normalisation pipeline

    A shallow embedding of [src/vale-runner.ts], [src/config.ts],
    [src/types.ts] and the request handler of [src/index.ts], followed by
    the properties of the pipeline that the specification states.

    JavaScript strings are sequences of UTF-16 code units, so that the
    white space removed by [String.prototype.trim] and matched by [\s] is
    the set ECMAScript defines.  Module-level variables of the program
    ([valeInstallCache], [valeConfigPath]) are fields of an explicit
    process state; everything the program obtains from its host (the
    environment, the file system, [child_process.exec], [JSON.parse],
    [path]) is a field of a [Host] record. *)

From Stdlib Require Import List NArith ZArith Bool Ascii String Lia.
From Stdlib Require Import Permutation.
Import ListNotations.

Set Warnings "-register-all".

(** ** JavaScript strings *)

Module JS.

(** A string: its UTF-16 code units. *)
Definition jsstr : Type := list N.

(** An ASCII literal as a JavaScript string. *)
Definition lit (s : string) : jsstr :=
  map N_of_ascii (list_ascii_of_string s).

Definition nl : jsstr := [10%N].
Definition dquote : jsstr := [34%N].

Fixpoint jsstr_eqb (a b : jsstr) : bool :=
  match a, b with
  | [], [] => true
  | x :: a', y :: b' => N.eqb x y && jsstr_eqb a' b'
  | _, _ => false
  end.

(** [WhiteSpace] and [LineTerminator] of ECMAScript: what [trim] removes
    and what [\s] matches. *)
Definition isSpace (c : N) : bool :=
  (( 9 <=? c) && (c <=? 13) || (c =? 32) || (c =? 160) || (c =? 5760)
   || ((8192 <=? c) && (c <=? 8202)) || (c =? 8232) || (c =? 8233)
   || (c =? 8239) || (c =? 8287) || (c =? 12288) || (c =? 65279))%N.

Fixpoint dropSpaces (s : jsstr) : jsstr :=
  match s with
  | [] => []
  | c :: r => if isSpace c then dropSpaces r else s
  end.

Definition trimStart (s : jsstr) : jsstr := dropSpaces s.
Definition trimEnd (s : jsstr) : jsstr := rev (dropSpaces (rev s)).
(** [String.prototype.trim] *)
Definition trim (s : jsstr) : jsstr := trimEnd (trimStart s).

(** [s.startsWith(p)]; on a match, the rest of [s]. *)
Fixpoint stripPrefix (p s : jsstr) : option jsstr :=
  match p, s with
  | [], _ => Some s
  | x :: p', y :: s' => if N.eqb x y then stripPrefix p' s' else None
  | _ :: _, [] => None
  end.

Definition startsWith (p s : jsstr) : bool :=
  match stripPrefix p s with Some _ => true | None => false end.

Definition endsWith (p s : jsstr) : bool := startsWith (rev p) (rev s).

(** [s.includes(p)] *)
Fixpoint includes (p s : jsstr) : bool :=
  startsWith p s ||
  match s with
  | [] => false
  | _ :: r => includes p r
  end.

(** Truthiness of an optional string: [undefined] and the empty string
    are falsy. *)
Definition truthy (o : option jsstr) : bool :=
  match o with
  | Some (_ :: _) => true
  | _ => false
  end.

(** [a || b] on optional strings. *)
Definition orElse (a b : option jsstr) : option jsstr :=
  if truthy a then a else b.

(** Decimal digits of a natural number, as [Number.prototype.toString]
    prints a safe integer. *)
Fixpoint uint_digits (d : Decimal.uint) : jsstr :=
  match d with
  | Decimal.Nil => []
  | Decimal.D0 r => 48%N :: uint_digits r
  | Decimal.D1 r => 49%N :: uint_digits r
  | Decimal.D2 r => 50%N :: uint_digits r
  | Decimal.D3 r => 51%N :: uint_digits r
  | Decimal.D4 r => 52%N :: uint_digits r
  | Decimal.D5 r => 53%N :: uint_digits r
  | Decimal.D6 r => 54%N :: uint_digits r
  | Decimal.D7 r => 55%N :: uint_digits r
  | Decimal.D8 r => 56%N :: uint_digits r
  | Decimal.D9 r => 57%N :: uint_digits r
  end.

Definition N_toString (n : N) : jsstr := uint_digits (N.to_uint n).
Definition nat_toString (n : nat) : jsstr := N_toString (N.of_nat n).
Definition Z_toString (z : Z) : jsstr :=
  match z with
  | Z0 => lit "0"
  | Zpos p => N_toString (Npos p)
  | Zneg p => lit "-" ++ N_toString (Npos p)
  end.

(** Upper case of a code unit in the ASCII range; other code units are
    left alone.  The program upper-cases only the three severity keys,
    and a case-insensitive regular expression without the [u] flag never
    lets a non-ASCII code unit match an ASCII letter. *)
Definition upper (c : N) : N :=
  if ((97 <=? c) && (c <=? 122))%N then (c - 32)%N else c.

Definition toUpperCase (s : jsstr) : jsstr := map upper s.

(** [Array.prototype.join] *)
Fixpoint join (sep : jsstr) (parts : list jsstr) : jsstr :=
  match parts with
  | [] => []
  | [p] => p
  | p :: rest => p ++ sep ++ join sep rest
  end.

End JS.
Import JS.

(** ** src/types.ts *)

Record ValeAction := {
  Name : jsstr;
  Params : list jsstr
}.

(** A single issue as Vale emits it.  [Severity] is declared as the
    union ["error" | "warning" | "suggestion"], but the value comes out of
    [JSON.parse] through an unchecked cast, so at run time it is whatever
    string the document holds; it is modelled as that string. *)
Record ValeIssue := {
  Line : Z;
  Span : Z * Z;
  Check : jsstr;
  Message : jsstr;
  Severity : jsstr;
  Link : option jsstr;
  Match : option jsstr;
  Action : option ValeAction
}.

(** Vale's raw output: an object keyed by file path.  The list is the
    object's own properties in the order [for ... in] enumerates them. *)
Definition ValeRawOutput : Type := list (jsstr * list ValeIssue).

Record NormalizedValeIssue := {
  line : Z;
  span : Z * Z;
  check : jsstr;
  message : jsstr;
  severity : jsstr;
  link : option jsstr;
  match_ : option jsstr
}.

Record ValeSummary := {
  total : nat;
  errors : nat;
  warnings : nat;
  suggestions : nat
}.

Record CheckFileResult := {
  formatted : jsstr;
  file : jsstr;
  issues : list NormalizedValeIssue;
  summary : ValeSummary
}.

Record ValeServerConfig := {
  configPath : option jsstr
}.

(** ** The host *)

(** The value a rejected [exec] promise carries.  [child_process.exec]
    rejects with an [Error] that has [stdout] and [stderr] attached; the
    fields are optional because the handlers test them for truthiness. *)
Record ExecError := {
  instanceofError : bool;
  err_message : option jsstr;
  err_stdout : option jsstr;
  err_stderr : option jsstr
}.

Inductive ExecOutcome :=
| Resolved (stdout stderr : jsstr)
| Rejected (e : ExecError).

(** One call of [execAsync]: the command line and the [cwd] option. *)
Definition ExecCall : Type := (jsstr * option jsstr)%type.

Record Host := {
  (** [process.platform] *)
  platform : jsstr;
  (** [process.cwd()] *)
  cwd : jsstr;
  (** [process.env.VALE_CONFIG_PATH] *)
  env_VALE_CONFIG_PATH : option jsstr;
  (** [fs.access(p, R_OK)] resolves *)
  readable : jsstr -> bool;
  path_isAbsolute : jsstr -> bool;
  path_resolve : list jsstr -> jsstr;
  path_join : list jsstr -> jsstr;
  path_dirname : jsstr -> jsstr;
  (** What the [n]-th call of [exec] in the life of the process yields. *)
  exec : nat -> ExecCall -> ExecOutcome;
  (** [JSON.parse(text) as ValeRawOutput]: the document, or the message
      of the [SyntaxError]. *)
  JSON_parse : jsstr -> jsstr + ValeRawOutput;
  (** [error.stack] of an [Error] with the given message. *)
  Error_stack : jsstr -> option jsstr;
  (** The message of the [TypeError] thrown when the named property is
      destructured from [undefined]. *)
  destructure_message : jsstr -> jsstr
}.

(** ** Process state and the monad of the asynchronous functions *)

(** [valeInstallCache] of vale-runner.ts *)
Record InstallCache := {
  checked : bool;
  installed : bool;
  version : option jsstr;
  error : option jsstr
}.

Record Process := {
  valeInstallCache : InstallCache;
  (** [valeConfigPath] of index.ts *)
  valeConfigPath : option jsstr;
  (** every external command run so far, oldest first *)
  execLog : list ExecCall;
  (** every line written with [console.error], oldest first *)
  stderrLog : list jsstr
}.

(** A call either returns or throws [new Error(message)]. *)
Inductive Result (A : Type) :=
| Returned (a : A)
| Thrown (msg : jsstr).
Arguments Returned {A} a.
Arguments Thrown {A} msg.

Definition M (A : Type) : Type := Process -> Result A * Process.

Definition ret {A} (a : A) : M A := fun p => (Returned a, p).
Definition throw {A} (msg : jsstr) : M A := fun p => (Thrown msg, p).
Definition bind {A B} (m : M A) (k : A -> M B) : M B :=
  fun p =>
    match m p with
    | (Returned a, p') => k a p'
    | (Thrown msg, p') => (Thrown msg, p')
    end.
(** [try { m } catch (error) { handler(error.message) }] *)
Definition try_catch {A} (m : M A) (handler : jsstr -> M A) : M A :=
  fun p =>
    match m p with
    | (Returned a, p') => (Returned a, p')
    | (Thrown msg, p') => handler msg p'
    end.
Definition lift {A} (r : Result A) : M A := fun p => (r, p).

Notation "x <- m ;; k" := (bind m (fun x => k))
  (at level 61, m at next level, right associativity).
Notation "m ;;; k" := (bind m (fun _ => k))
  (at level 61, right associativity).

Definition console_error (msg : jsstr) : M unit :=
  fun p =>
    (Returned tt,
     {| valeInstallCache := valeInstallCache p;
        valeConfigPath := valeConfigPath p;
        execLog := execLog p;
        stderrLog := stderrLog p ++ [msg] |}).

Definition get_cache : M InstallCache :=
  fun p => (Returned (valeInstallCache p), p).

Definition set_cache (c : InstallCache) : M unit :=
  fun p =>
    (Returned tt,
     {| valeInstallCache := c;
        valeConfigPath := valeConfigPath p;
        execLog := execLog p;
        stderrLog := stderrLog p |}).

Definition get_valeConfigPath : M (option jsstr) :=
  fun p => (Returned (valeConfigPath p), p).

Definition set_valeConfigPath (c : option jsstr) : M unit :=
  fun p =>
    (Returned tt,
     {| valeInstallCache := valeInstallCache p;
        valeConfigPath := c;
        execLog := execLog p;
        stderrLog := stderrLog p |}).

(** [await execAsync(command, { cwd })]: the host answers the call, which
    is appended to the log. *)
Definition execAsync (h : Host) (command : jsstr) (dir : option jsstr)
  : M ExecOutcome :=
  fun p =>
    (Returned (exec h (List.length (execLog p)) (command, dir)),
     {| valeInstallCache := valeInstallCache p;
        valeConfigPath := valeConfigPath p;
        execLog := execLog p ++ [(command, dir)];
        stderrLog := stderrLog p |}).

(** ** src/vale-runner.ts *)

(** What [checkValeInstalled] resolves to. *)
Record InstallationStatus := {
  status_installed : bool;
  status_version : option jsstr;
  status_error : option jsstr
}.

(** What [syncValeStyles] resolves to. *)
Record SyncResult := {
  success : bool;
  sync_message : jsstr;
  output : option jsstr;
  sync_error : option jsstr
}.

(** The initial value of [valeInstallCache], also what
    [clearValeInstallCache] stores. *)
Definition emptyCache : InstallCache :=
  {| checked := false; installed := false; version := None; error := None |}.

Definition statusOfCache (c : InstallCache) : InstallationStatus :=
  {| status_installed := installed c;
     status_version := version c;
     status_error := error c |}.

Section ValeRunner.

Variable h : Host.

Definition checkValeInstalled : M InstallationStatus :=
  c <- get_cache ;;
  if checked c then ret (statusOfCache c)
  else
    out <- execAsync h (lit "vale --version") None ;;
    (match out with
     | Resolved stdout _ =>
         set_cache {| checked := true; installed := true;
                      version := Some (trim stdout); error := None |}
     | Rejected e =>
         set_cache {| checked := true; installed := false;
                      version := None;
                      error :=
                        if instanceofError e then err_message e
                        else Some (lit "Vale not found in PATH. To install Vale, go to https://vale.sh/docs/vale-cli/installation/") |}
     end) ;;;
    c' <- get_cache ;;
    ret (statusOfCache c').

Definition clearValeInstallCache : M unit := set_cache emptyCache.

Definition syncValeStyles (configPath : option jsstr) : M SyncResult :=
  let command := lit "vale sync" in
  let workingDir := cwd h in
  setup <-
    (match configPath with
     | Some ((_ :: _) as c) =>
         if readable h c
         then ret (command ++ lit " --config=" ++ dquote ++ c ++ dquote,
                   path_dirname h (path_resolve h [c]))
         else
           console_error
             (lit "Warning: Config path " ++ c ++ lit " is not accessible") ;;;
           ret (command, workingDir)
     | _ => ret (command, workingDir)
     end) ;;
  let '(command, workingDir) := setup in
  console_error (lit "Running: " ++ command) ;;;
  console_error (lit "Working directory: " ++ workingDir) ;;;
  out <- execAsync h command (Some workingDir) ;;
  match out with
  | Resolved stdout stderr =>
      let output :=
        stdout ++ (match stderr with [] => [] | _ => nl ++ stderr end) in
      ret {| success := true;
             sync_message := lit "Vale styles synchronized successfully";
             output := Some (trim output);
             sync_error := None |}
  | Rejected e =>
      let errorMsg :=
        if instanceofError e then err_message e
        else Some (lit "Unknown error") in
      ret {| success := false;
             sync_message := lit "Failed to sync Vale styles";
             output := None;
             sync_error := errorMsg |}
  end.

(** [output.replace(/^```json\s*\n?/, "")]: the pattern is anchored at the
    start of the text, and the greedy [\s*] also takes every line feed, so
    a match is the opening marker with all the white space after it. *)
Definition replaceOpeningFence (s : jsstr) : jsstr :=
  match stripPrefix (lit "```json") s with
  | Some r => dropSpaces r
  | None => s
  end.

(** [```\s*$] matches at the start of [s]: three back-ticks and then
    nothing but white space up to the end of the text. *)
Definition fenceToEnd (s : jsstr) : bool :=
  match stripPrefix (lit "```") s with
  | Some r => forallb isSpace r
  | None => false
  end.

(** [\n?```\s*$] matches at the start of [s]: first with the optional line
    feed taken, then without it. *)
Definition closingFenceAt (s : jsstr) : bool :=
  match s with
  | c :: r => if (c =? 10)%N then fenceToEnd r || fenceToEnd s else fenceToEnd s
  | [] => fenceToEnd s
  end.

(** [s.replace(/\n?```\s*$/, "")]: the leftmost position at which the
    pattern matches; the match runs to the end of the text and is
    removed. *)
Fixpoint replaceClosingFence (s : jsstr) : jsstr :=
  if closingFenceAt s then []
  else
    match s with
    | [] => []
    | c :: r => c :: replaceClosingFence r
    end.

Definition stripCodeFence (output : jsstr) : jsstr :=
  trim (replaceClosingFence (replaceOpeningFence output)).

Definition parseValeOutput (output : jsstr) : Result ValeRawOutput :=
  let cleanedOutput := stripCodeFence output in
  match cleanedOutput with
  | [] => Returned []
  | _ =>
      match JSON_parse h cleanedOutput with
      | inr raw => Returned raw
      | inl msg =>
          Thrown (lit "Failed to parse Vale JSON output: " ++ msg)
      end
  end.

End ValeRunner.

Definition normalizeIssue (issue : ValeIssue) : NormalizedValeIssue :=
  {| line := Line issue;
     span := Span issue;
     check := Check issue;
     message := Message issue;
     severity := Severity issue;
     link := Link issue;
     match_ := Match issue |}.

(** The two nested loops, each [push] appending to [normalized]. *)
Definition normalizeIssues (issues : ValeRawOutput)
  : list NormalizedValeIssue :=
  fold_left
    (fun normalized entry =>
       fold_left
         (fun normalized issue => normalized ++ [normalizeIssue issue])
         (snd entry) normalized)
    issues [].

(** The body of the [switch] in [generateSummary]: strict equality with
    the three tags, and no default branch. *)
Definition countIssue (summary : ValeSummary) (issue : NormalizedValeIssue)
  : ValeSummary :=
  if jsstr_eqb (severity issue) (lit "error") then
    {| total := total summary; errors := S (errors summary);
       warnings := warnings summary; suggestions := suggestions summary |}
  else if jsstr_eqb (severity issue) (lit "warning") then
    {| total := total summary; errors := errors summary;
       warnings := S (warnings summary); suggestions := suggestions summary |}
  else if jsstr_eqb (severity issue) (lit "suggestion") then
    {| total := total summary; errors := errors summary;
       warnings := warnings summary; suggestions := S (suggestions summary) |}
  else summary.

Definition generateSummary (issues : list NormalizedValeIssue) : ValeSummary :=
  fold_left countIssue issues
    {| total := List.length issues; errors := 0; warnings := 0;
       suggestions := 0 |}.

(** [n !== 1 ? 's' : ''] *)
Definition plural (n : nat) : jsstr :=
  if Nat.eqb n 1 then [] else lit "s".

(** The [parts] array of [formatValeResults]. *)
Definition summaryParts (summary : ValeSummary) : list jsstr :=
  let parts := [] in
  let parts :=
    if Nat.ltb 0 (errors summary)
    then parts ++ [nat_toString (errors summary) ++ lit " error"
                     ++ plural (errors summary)]
    else parts in
  let parts :=
    if Nat.ltb 0 (warnings summary)
    then parts ++ [nat_toString (warnings summary) ++ lit " warning"
                     ++ plural (warnings summary)]
    else parts in
  let parts :=
    if Nat.ltb 0 (suggestions summary)
    then parts ++ [nat_toString (suggestions summary) ++ lit " suggestion"
                     ++ plural (suggestions summary)]
    else parts in
  parts.

(** The red circle, the yellow circle and the light bulb, as surrogate
    pairs. *)
Definition severityEmoji : list (jsstr * jsstr) :=
  [ (lit "error", [55357; 56628]%N);
    (lit "warning", [55357; 57313]%N);
    (lit "suggestion", [55357; 56481]%N) ].

Fixpoint lookupKey (key : jsstr) (obj : list (jsstr * jsstr)) : option jsstr :=
  match obj with
  | [] => None
  | (k, v) :: rest => if jsstr_eqb k key then Some v else lookupKey key rest
  end.

(** A value interpolated into a template string. *)
Definition interpolate (o : option jsstr) : jsstr :=
  match o with
  | Some s => s
  | None => lit "undefined"
  end.

Definition hasSeverity (tag : jsstr) (i : NormalizedValeIssue) : bool :=
  jsstr_eqb (severity i) tag.

(** The [grouped] object, as [Object.entries] lists it. *)
Definition grouped (issues : list NormalizedValeIssue)
  : list (jsstr * list NormalizedValeIssue) :=
  [ (lit "error", filter (hasSeverity (lit "error")) issues);
    (lit "warning", filter (hasSeverity (lit "warning")) issues);
    (lit "suggestion", filter (hasSeverity (lit "suggestion")) issues) ].

(** U+21B3, the arrow that starts each detail line. *)
Definition arrow : jsstr := [8627%N].

(** What one turn of the inner loop appends to [output]. *)
Definition issueBlock (severityKey : jsstr) (issue : NormalizedValeIssue)
  : jsstr :=
  let emoji := lookupKey severityKey severityEmoji in
  let output :=
    interpolate emoji ++ lit " **Line " ++ Z_toString (line issue)
      ++ lit "** (" ++ toUpperCase severityKey ++ lit "): "
      ++ message issue ++ nl in
  let output :=
    if truthy (match_ issue)
    then output ++ lit "   " ++ arrow ++ lit " Found: " ++ dquote
           ++ interpolate (match_ issue) ++ dquote ++ nl
    else output in
  let output :=
    output ++ lit "   " ++ arrow ++ lit " Rule: `" ++ check issue
      ++ lit "`" ++ nl in
  let output :=
    if truthy (link issue)
    then output ++ lit "   " ++ arrow ++ lit " [More info]("
           ++ interpolate (link issue) ++ lit ")" ++ nl
    else output in
  output ++ nl.

(** The report for zero issues; it starts with U+2705. *)
Definition noIssuesMessage : jsstr :=
  [9989%N] ++ lit " **No style issues found!**" ++ nl ++ nl
    ++ lit "The text looks good according to Vale style rules.".

(** Everything [formatValeResults] writes before the loop over the
    groups. *)
Definition reportHead (summary : ValeSummary) (context : option jsstr)
  : jsstr :=
  let output := lit "## Vale Linting Results" ++ nl ++ nl in
  let output :=
    if truthy context
    then output ++ lit "**Context:** " ++ interpolate context ++ nl ++ nl
    else output in
  let output :=
    output ++ lit "**Summary:** " ++ nat_toString (total summary)
      ++ lit " issue" ++ plural (total summary) ++ lit " found" in
  let parts := summaryParts summary in
  let output :=
    match parts with
    | [] => output
    | _ => output ++ lit " (" ++ join (lit ", ") parts ++ lit ")"
    end in
  let output := output ++ nl ++ nl in
  output ++ lit "### Issues" ++ nl ++ nl.

Definition formatValeResults (issues : list NormalizedValeIssue)
  (summary : ValeSummary) (context : option jsstr) : jsstr :=
  match issues with
  | [] => noIssuesMessage
  | _ =>
      fold_left
        (fun output entry =>
           let '(severityKey, severityIssues) := entry in
           match severityIssues with
           | [] => output
           | _ =>
               fold_left
                 (fun output issue => output ++ issueBlock severityKey issue)
                 severityIssues output
           end)
        (grouped issues)
        (reportHead summary context)
  end.

Section CheckFile.

Variable h : Host.

Definition checkFile (filePath : jsstr) (configPath : option jsstr)
  : M CheckFileResult :=
  (if readable h filePath then ret tt
   else throw (lit "File not found or not readable: " ++ filePath)) ;;;
  let absolutePath :=
    if path_isAbsolute h filePath then filePath
    else path_resolve h [cwd h; filePath] in
  let command := lit "vale --output=JSON" in
  command <-
    (if truthy configPath
     then
       console_error (lit "Using explicit config: " ++ interpolate configPath) ;;;
       ret (command ++ lit " --config=" ++ dquote ++ interpolate configPath
              ++ dquote)
     else
       console_error (lit "Letting Vale search for config from: "
                        ++ path_dirname h absolutePath) ;;;
       ret command) ;;
  let command := command ++ lit " " ++ dquote ++ absolutePath ++ dquote in
  result <- execAsync h command (Some (path_dirname h absolutePath)) ;;
  stdout <-
    (match result with
     | Resolved stdout _ => ret stdout
     | Rejected e =>
         if truthy (err_stdout e) then ret (interpolate (err_stdout e))
         else
           let errorMessage :=
             orElse (orElse (err_stderr e) (err_message e))
                    (Some (lit "Unknown error")) in
           throw (lit "Vale execution failed: " ++ interpolate errorMessage)
     end) ;;
  rawOutput <- lift (parseValeOutput h stdout) ;;
  let issues := normalizeIssues rawOutput in
  let summary := generateSummary issues in
  let formatted := formatValeResults issues summary (Some absolutePath) in
  ret {| formatted := formatted;
         file := absolutePath;
         issues := issues;
         summary := summary |}.

End CheckFile.

(** ** src/config.ts *)

Section Config.

Variable h : Host.

Definition loadConfig : ValeServerConfig :=
  {| configPath :=
       if truthy (env_VALE_CONFIG_PATH h) then env_VALE_CONFIG_PATH h
       else None |}.

Definition findValeIniInWorkingDir : option jsstr :=
  let valeIniPath := path_join h [cwd h; lit ".vale.ini"] in
  if readable h valeIniPath then Some valeIniPath else None.

Definition verifyConfigFile (configPath : jsstr) : bool :=
  readable h configPath.

Definition resolveConfigPath (configPath : jsstr) : jsstr :=
  if path_isAbsolute h configPath then configPath
  else path_resolve h [cwd h; configPath].

End Config.

(** ** JSON.stringify *)

(** The values the handlers serialise. *)
Inductive jsval :=
| JUndefined
| JNull
| JBool (b : bool)
| JString (s : jsstr)
| JArray (items : list jsval)
| JObject (props : list (jsstr * jsval)).

Definition hexDigit (n : N) : N :=
  (if n <? 10 then 48 + n else 87 + n)%N.

Definition unicodeEscape (c : N) : jsstr :=
  [92; 117; hexDigit (c / 4096); hexDigit ((c / 256) mod 16);
   hexDigit ((c / 16) mod 16); hexDigit (c mod 16)]%N.

Definition isHighSurrogate (c : N) : bool := ((55296 <=? c) && (c <=? 56319))%N.
Definition isLowSurrogate (c : N) : bool := ((56320 <=? c) && (c <=? 57343))%N.

(** The body of [QuoteJSONString]. *)
Fixpoint quoteChars (s : jsstr) : jsstr :=
  match s with
  | [] => []
  | c :: r =>
      if (c =? 8)%N then [92; 98]%N ++ quoteChars r
      else if (c =? 9)%N then [92; 116]%N ++ quoteChars r
      else if (c =? 10)%N then [92; 110]%N ++ quoteChars r
      else if (c =? 12)%N then [92; 102]%N ++ quoteChars r
      else if (c =? 13)%N then [92; 114]%N ++ quoteChars r
      else if (c =? 34)%N then [92; 34]%N ++ quoteChars r
      else if (c =? 92)%N then [92; 92]%N ++ quoteChars r
      else if (c <? 32)%N then unicodeEscape c ++ quoteChars r
      else if isHighSurrogate c then
        match r with
        | d :: r' =>
            if isLowSurrogate d then c :: d :: quoteChars r'
            else unicodeEscape c ++ quoteChars r
        | [] => unicodeEscape c
        end
      else if isLowSurrogate c then unicodeEscape c ++ quoteChars r
      else c :: quoteChars r
  end.

Definition quoteJSONString (s : jsstr) : jsstr :=
  dquote ++ quoteChars s ++ dquote.

(** The layout [SerializeJSONObject] and [SerializeJSONArray] share. *)
Definition wrapParts (open close gap indent stepback : jsstr)
  (partial : list jsstr) : jsstr :=
  match partial with
  | [] => open ++ close
  | _ =>
      match gap with
      | [] => open ++ join (lit ",") partial ++ close
      | _ =>
          open ++ nl ++ indent ++ join (lit "," ++ nl ++ indent) partial
            ++ nl ++ stepback ++ close
      end
  end.

(** [SerializeJSONProperty]: [None] is [undefined]. *)
Fixpoint serializeJSONProperty (gap indent : jsstr) (v : jsval)
  : option jsstr :=
  match v with
  | JUndefined => None
  | JNull => Some (lit "null")
  | JBool true => Some (lit "true")
  | JBool false => Some (lit "false")
  | JString s => Some (quoteJSONString s)
  | JArray items =>
      let stepback := indent in
      let indent := indent ++ gap in
      let partial :=
        map (fun x =>
               match serializeJSONProperty gap indent x with
               | Some s => s
               | None => lit "null"
               end) items in
      Some (wrapParts (lit "[") (lit "]") gap indent stepback partial)
  | JObject props =>
      let stepback := indent in
      let indent := indent ++ gap in
      let partial :=
        (fix members (ps : list (jsstr * jsval)) : list jsstr :=
           match ps with
           | [] => []
           | (k, x) :: rest =>
               match serializeJSONProperty gap indent x with
               | Some s =>
                   (quoteJSONString k ++ lit ":"
                      ++ (match gap with [] => [] | _ => lit " " end) ++ s)
                     :: members rest
               | None => members rest
               end
           end) props in
      Some (wrapParts (lit "{") (lit "}") gap indent stepback partial)
  end.

(** [JSON.stringify(value, null, space)] with [space] blanks of
    indentation; [JSON.stringify(value)] is [space = 0]. *)
Definition JSON_stringify (v : jsval) (space : nat) : jsstr :=
  interpolate (serializeJSONProperty (repeat 32%N space) [] v).

(** ** src/index.ts *)

Record InstallMethod := {
  method_name : jsstr;
  method_command : jsstr;
  method_url : option jsstr
}.

Record InstallationInstructions := {
  instr_platform : jsstr;
  instr_documentation : jsstr;
  instr_methods : list InstallMethod
}.

Definition releasesUrl : jsstr :=
  lit "https://github.com/errata-ai/vale/releases".

Definition downloadBinary : InstallMethod :=
  {| method_name := lit "Download binary";
     method_command := lit "Download from GitHub releases";
     method_url := Some releasesUrl |}.

(** The arguments of a tool call, as the handlers destructure them. *)
Record ToolArguments := {
  path : option jsstr;
  config_path : option jsstr
}.

(** [request.params] *)
Record Request := {
  name : jsstr;
  arguments : option ToolArguments
}.

(** [_meta.structured_data] of a [check_file] response. *)
Record StructuredData := {
  sd_file : jsstr;
  sd_issues : list NormalizedValeIssue;
  sd_summary : ValeSummary
}.

(** A response: its single text item, and the structured payload when
    there is one. *)
Record Response := {
  text : jsstr;
  structured_data : option StructuredData
}.

Definition textResponse (t : jsstr) : Response :=
  {| text := t; structured_data := None |}.

Definition optString (o : option jsstr) : jsval :=
  match o with
  | Some s => JString s
  | None => JUndefined
  end.

Definition methodValue (m : InstallMethod) : jsval :=
  JObject [ (lit "name", JString (method_name m));
            (lit "command", JString (method_command m));
            (lit "url", optString (method_url m)) ].

Definition instructionsValue (i : InstallationInstructions) : jsval :=
  JObject [ (lit "platform", JString (instr_platform i));
            (lit "documentation", JString (instr_documentation i));
            (lit "methods", JArray (map methodValue (instr_methods i))) ].

Section Index.

Variable h : Host.

Definition getInstallationInstructions : InstallationInstructions :=
  let methods :=
    if jsstr_eqb (platform h) (lit "darwin") then
      [ {| method_name := lit "Homebrew (recommended)";
           method_command := lit "brew install vale";
           method_url := None |};
        downloadBinary ]
    else if jsstr_eqb (platform h) (lit "linux") then
      [ {| method_name := lit "Snap";
           method_command := lit "sudo snap install vale";
           method_url := None |};
        {| method_name := lit "Download binary";
           method_command := lit "Download from GitHub releases and add to PATH";
           method_url := Some releasesUrl |} ]
    else if jsstr_eqb (platform h) (lit "win32") then
      [ {| method_name := lit "Chocolatey";
           method_command := lit "choco install vale";
           method_url := None |};
        {| method_name := lit "Scoop";
           method_command := lit "scoop install vale";
           method_url := None |};
        downloadBinary ]
    else [ downloadBinary ] in
  {| instr_platform := platform h;
     instr_documentation := lit "https://vale.sh/docs/vale-cli/installation/";
     instr_methods := methods |}.

(** The object [createValeNotInstalledResponse] serialises. *)
Definition notInstalledPayload : jsval :=
  JObject
    [ (lit "error", JString (lit "Vale is not installed or not found in PATH"));
      (lit "vale_required", JBool true);
      (lit "installation_instructions",
       instructionsValue getInstallationInstructions);
      (lit "message",
       JString (lit "Please install Vale to use this feature. Vale is a command-line tool for prose linting.")) ].

Definition createValeNotInstalledResponse : Response :=
  textResponse (JSON_stringify notInstalledPayload 2).

(** [/E100|does not exist|Runtime error/i.test(errorMessage)] *)
Definition isStylesDirectoryError (errorMessage : jsstr) : bool :=
  let upperMessage := toUpperCase errorMessage in
  includes (toUpperCase (lit "E100")) upperMessage
  || includes (toUpperCase (lit "does not exist")) upperMessage
  || includes (toUpperCase (lit "Runtime error")) upperMessage.

(** The object the [vale_status] case serialises. *)
Definition statusPayload (valeCheck : InstallationStatus) : jsval :=
  JObject
    [ (lit "installed", JBool (status_installed valeCheck));
      (lit "version", optString (status_version valeCheck));
      (lit "platform", JString (platform h));
      (lit "installation_instructions",
       if status_installed valeCheck then JNull
       else instructionsValue getInstallationInstructions);
      (lit "message",
       JString
         (if status_installed valeCheck
          then lit "Vale is installed and ready to use ("
                 ++ interpolate (status_version valeCheck) ++ lit ")"
          else lit "Vale is not installed. Please install it to use Vale linting tools.")) ].

End Index.

Fixpoint forEach {A} (f : A -> M unit) (items : list A) : M unit :=
  match items with
  | [] => ret tt
  | x :: rest => f x ;;; forEach f rest
  end.

(** The lines of a multi-line template literal. *)
Definition unlines (ls : list jsstr) : jsstr := join nl ls.

Definition codeFence : jsstr := lit "```".

(** The two marks the sync and configuration-error texts start with, as
    they stand in the source file. *)
Definition okMark : jsstr := [8218; 250; 214]%N.
Definition failMark : jsstr := [8218; 249; 229]%N.

Definition syncSuccessText (syncResult : SyncResult) : jsstr :=
  unlines
    [ okMark ++ lit " **Vale Sync Successful**";
      [];
      sync_message syncResult;
      [];
      (if truthy (output syncResult)
       then unlines [ lit "**Output:**"; codeFence;
                      interpolate (output syncResult); codeFence ]
       else []);
      [];
      lit "The styles have been downloaded and are ready to use. You can now run `check_file` again." ].

Definition syncFailureText (syncResult : SyncResult) : jsstr :=
  unlines
    [ failMark ++ lit " **Vale Sync Failed**";
      [];
      sync_message syncResult;
      [];
      (if truthy (sync_error syncResult)
       then unlines [ lit "**Error:**"; codeFence;
                      interpolate (sync_error syncResult); codeFence ]
       else []);
      [];
      lit "Please check your .vale.ini configuration and ensure:";
      lit "1. The StylesPath is correct";
      lit "2. Packages are properly defined";
      lit "3. You have internet connectivity to download packages";
      [];
      lit "See Vale documentation: https://vale.sh/docs/topics/packages/" ].

Definition configurationErrorText (errorMessage : jsstr) : jsstr :=
  unlines
    [ failMark ++ lit " **Vale Configuration Error**";
      [];
      errorMessage;
      [];
      lit "This error indicates that Vale's styles directory is missing or the configured packages haven't been downloaded yet.";
      [];
      lit "**Solution:**";
      lit "Run the `vale_sync` tool to download the required style packages:";
      [];
      codeFence;
      lit "vale_sync";
      codeFence;
      [];
      lit "This will:";
      lit "1. Read your .vale.ini configuration";
      lit "2. Download all configured style packages";
      lit "3. Create the necessary styles directory";
      [];
      lit "After running `vale_sync`, you can try `check_file` again.";
      [];
      lit "For more information, see: https://vale.sh/docs/topics/packages/" ].

(** The response of [check_file] to a missing or empty [path]. *)
Definition missingPathResponse : Response :=
  textResponse
    (JSON_stringify
       (JObject [ (lit "error", JString (lit "Missing required parameter: path")) ])
       0).

Section Handler.

Variable h : Host.

Definition vale_status_case : M Response :=
  valeCheck <- checkValeInstalled h ;;
  ret (textResponse (JSON_stringify (statusPayload h valeCheck) 2)).

Definition vale_sync_case (args : option ToolArguments) : M Response :=
  match args with
  | None => throw (destructure_message h (lit "config_path"))
  | Some args =>
      valeCheck <- checkValeInstalled h ;;
      if negb (status_installed valeCheck)
      then ret (createValeNotInstalledResponse h)
      else
        valeConfigPath <- get_valeConfigPath ;;
        let effectiveConfigPath := orElse (config_path args) valeConfigPath in
        syncResult <- syncValeStyles h effectiveConfigPath ;;
        if success syncResult
        then ret (textResponse (syncSuccessText syncResult))
        else ret (textResponse (syncFailureText syncResult))
  end.

Definition check_file_case (args : option ToolArguments) : M Response :=
  match args with
  | None => throw (destructure_message h (lit "path"))
  | Some args =>
      let filePath := path args in
      if negb (truthy filePath) then ret missingPathResponse
      else
        valeCheck <- checkValeInstalled h ;;
        if negb (status_installed valeCheck)
        then ret (createValeNotInstalledResponse h)
        else
          valeConfigPath <- get_valeConfigPath ;;
          result <- checkFile h (interpolate filePath) valeConfigPath ;;
          ret {| text := formatted result;
                 structured_data :=
                   Some {| sd_file := file result;
                           sd_issues := issues result;
                           sd_summary := summary result |} |}
  end.

(** The [catch] clause of the request handler. *)
Definition dispatchFailure (errorMessage : jsstr) : M Response :=
  let errorDetails := Error_stack h errorMessage in
  if isStylesDirectoryError errorMessage
  then ret (textResponse (configurationErrorText errorMessage))
  else
    ret (textResponse
           (JSON_stringify
              (JObject [ (lit "error", JString errorMessage);
                         (lit "details", optString errorDetails) ])
              0)).

(** The handler of [CallToolRequestSchema].  The [debug] calls write
    nothing unless the server was started in debug mode and are left
    out. *)
Definition callTool (request : Request) : M Response :=
  try_catch
    (if jsstr_eqb (name request) (lit "vale_status") then vale_status_case
     else if jsstr_eqb (name request) (lit "vale_sync")
       then vale_sync_case (arguments request)
     else if jsstr_eqb (name request) (lit "check_file")
       then check_file_case (arguments request)
     else
       ret (textResponse
              (JSON_stringify
                 (JObject [ (lit "error",
                             JString (lit "Unknown tool: " ++ name request)) ])
                 0)))
    dispatchFailure.

Definition logMethod (method : InstallMethod) : M unit :=
  console_error (lit "  " ++ method_name method ++ lit ": "
                   ++ method_command method) ;;;
  if truthy (method_url method)
  then console_error (lit "    " ++ interpolate (method_url method))
  else ret tt.

Definition initializeValeConfig : M unit :=
  valeCheck <- checkValeInstalled h ;;
  if negb (status_installed valeCheck) then
    console_error (lit "WARNING: Vale is not installed or not in PATH") ;;;
    console_error (lit "The server will start, but linting tools will not work until Vale is installed.") ;;;
    console_error [] ;;;
    console_error (lit "Installation instructions:") ;;;
    let instructions := getInstallationInstructions h in
    forEach logMethod (instr_methods instructions) ;;;
    console_error [] ;;;
    console_error (lit "Documentation: " ++ instr_documentation instructions) ;;;
    console_error [] ;;;
    console_error (lit "Use the 'vale_status' tool to check installation status after installing.") ;;;
    console_error []
  else
    console_error (lit "Vale version: " ++ interpolate (status_version valeCheck)) ;;;
    let config := loadConfig h in
    fallThrough <-
      (if truthy (configPath config) then
         let resolvedPath := resolveConfigPath h (interpolate (configPath config)) in
         if verifyConfigFile h resolvedPath then
           set_valeConfigPath (Some resolvedPath) ;;;
           console_error (lit "Using Vale config from VALE_CONFIG_PATH: "
                            ++ resolvedPath) ;;;
           ret false
         else
           console_error
             (lit "WARNING: VALE_CONFIG_PATH points to non-existent file: "
                ++ interpolate (configPath config)) ;;;
           ret true
       else ret true) ;;
    if fallThrough then
      let workingDirConfig := findValeIniInWorkingDir h in
      if truthy workingDirConfig then
        set_valeConfigPath workingDirConfig ;;;
        console_error (lit "Using .vale.ini from working directory: "
                         ++ interpolate workingDirConfig)
      else
        console_error (lit "WARNING: No .vale.ini file found in the current working directory") ;;;
        console_error (lit "Current working directory: " ++ cwd h) ;;;
        console_error [] ;;;
        console_error (lit "Vale will use default settings or search parent directories.") ;;;
        console_error (lit "For best results, create a .vale.ini file in your project directory.") ;;;
        console_error [] ;;;
        console_error (lit "Example .vale.ini:") ;;;
        console_error (lit "  StylesPath = styles") ;;;
        console_error (lit "  Packages = write-good, proselint") ;;;
        console_error [] ;;;
        console_error (lit "  [*]") ;;;
        console_error (lit "  BasedOnStyles = write-good, proselint") ;;;
        console_error []
    else ret tt.

End Handler.

(** The process before [main] runs [initializeValeConfig]. *)
Definition initialProcess : Process :=
  {| valeInstallCache := emptyCache;
     valeConfigPath := None;
     execLog := [];
     stderrLog := [] |}.

(** ** A reference host

    The theorems below hold for every [Host].  To evaluate the pipeline
    on concrete texts, [JSON.parse] is given here as a reader of the JSON
    grammar (RFC 8259) followed by a reading of the value at the type
    [ValeRawOutput]. *)

Module JsonText.

Inductive json :=
| JsNull
| JsBool (b : bool)
| JsNumber (lexeme : jsstr)
| JsString (s : jsstr)
| JsArray (items : list json)
| JsObject (members : list (jsstr * json)).

Inductive token :=
| TLBrace | TRBrace | TLBracket | TRBracket | TColon | TComma
| TStr (s : jsstr)
| TNum (lexeme : jsstr)
| TTrue | TFalse | TNull.

Definition isDigit (c : N) : bool := ((48 <=? c) && (c <=? 57))%N.
Definition isLower (c : N) : bool := ((97 <=? c) && (c <=? 122))%N.
(** The white space of the JSON grammar. *)
Definition isJsonSpace (c : N) : bool :=
  ((c =? 32) || (c =? 9) || (c =? 10) || (c =? 13))%N.
Definition isNumberChar (c : N) : bool :=
  (isDigit c || (c =? 45) || (c =? 43) || (c =? 46) || (c =? 101)
   || (c =? 69))%N.

Definition hexValue (c : N) : option N :=
  if isDigit c then Some (c - 48)%N
  else if ((97 <=? c) && (c <=? 102))%N then Some (c - 87)%N
  else if ((65 <=? c) && (c <=? 70))%N then Some (c - 55)%N
  else None.

Fixpoint dropDigits (s : jsstr) : jsstr :=
  match s with
  | [] => []
  | c :: r => if isDigit c then dropDigits r else s
  end.

(** The number grammar: an optional minus sign; zero, or a non-zero
    digit and further digits; optionally a point and digits; optionally
    an exponent mark, a sign and digits. *)
Definition validNumber (lexeme : jsstr) : bool :=
  let unsigned :=
    match lexeme with
    | 45%N :: r => r
    | _ => lexeme
    end in
  let afterInt :=
    match unsigned with
    | 48%N :: r => Some r
    | c :: r => if isDigit c then Some (dropDigits r) else None
    | [] => None
    end in
  let afterFrac :=
    match afterInt with
    | Some (46%N :: c :: r) => if isDigit c then Some (dropDigits r) else None
    | Some (46%N :: []) => None
    | other => other
    end in
  match afterFrac with
  | Some [] => true
  | Some (e :: r) =>
      if ((e =? 101) || (e =? 69))%N then
        let digits :=
          match r with
          | s :: r' => if ((s =? 43) || (s =? 45))%N then r' else r
          | [] => r
          end in
        match digits with
        | c :: r' => isDigit c && match dropDigits r' with [] => true | _ => false end
        | [] => false
        end
      else false
  | None => false
  end.

Inductive lexmode :=
| LOut
| LStr (acc : jsstr)
| LEsc (acc : jsstr)
| LHex (acc : jsstr) (digits : list N)
| LNum (acc : jsstr)
| LWord (acc : jsstr).

(** What a character does between two tokens. *)
Definition outStep (c : N) : option (lexmode * option token) :=
  if isJsonSpace c then Some (LOut, None)
  else if (c =? 123)%N then Some (LOut, Some TLBrace)
  else if (c =? 125)%N then Some (LOut, Some TRBrace)
  else if (c =? 91)%N then Some (LOut, Some TLBracket)
  else if (c =? 93)%N then Some (LOut, Some TRBracket)
  else if (c =? 58)%N then Some (LOut, Some TColon)
  else if (c =? 44)%N then Some (LOut, Some TComma)
  else if (c =? 34)%N then Some (LStr [], None)
  else if (isDigit c || (c =? 45))%N then Some (LNum [c], None)
  else if isLower c then Some (LWord [c], None)
  else None.

Definition numberToken (acc : jsstr) : option token :=
  if validNumber (rev acc) then Some (TNum (rev acc)) else None.

Definition wordToken (acc : jsstr) : option token :=
  let w := rev acc in
  if jsstr_eqb w (lit "true") then Some TTrue
  else if jsstr_eqb w (lit "false") then Some TFalse
  else if jsstr_eqb w (lit "null") then Some TNull
  else None.

Definition pushToken (t : option token) (toks : list token) : list token :=
  match t with
  | Some t => t :: toks
  | None => toks
  end.

(** The escape a character stands for after a backslash. *)
Definition simpleEscape (c : N) : option N :=
  if (c =? 34)%N then Some 34%N
  else if (c =? 92)%N then Some 92%N
  else if (c =? 47)%N then Some 47%N
  else if (c =? 98)%N then Some 8%N
  else if (c =? 102)%N then Some 12%N
  else if (c =? 110)%N then Some 10%N
  else if (c =? 114)%N then Some 13%N
  else if (c =? 116)%N then Some 9%N
  else None.

(** The tokens of a text, newest first in [toks]. *)
Fixpoint lex (mode : lexmode) (toks : list token) (s : jsstr)
  : option (list token) :=
  match s with
  | [] =>
      match mode with
      | LOut => Some (rev toks)
      | LNum acc => option_map (fun t => rev (t :: toks)) (numberToken acc)
      | LWord acc => option_map (fun t => rev (t :: toks)) (wordToken acc)
      | _ => None
      end
  | c :: r =>
      match mode with
      | LOut =>
          match outStep c with
          | Some (m, t) => lex m (pushToken t toks) r
          | None => None
          end
      | LStr acc =>
          if (c =? 34)%N then lex LOut (TStr (rev acc) :: toks) r
          else if (c =? 92)%N then lex (LEsc acc) toks r
          else if (c <? 32)%N then None
          else lex (LStr (c :: acc)) toks r
      | LEsc acc =>
          if (c =? 117)%N then lex (LHex acc []) toks r
          else
            match simpleEscape c with
            | Some e => lex (LStr (e :: acc)) toks r
            | None => None
            end
      | LHex acc digits =>
          match hexValue c with
          | Some d =>
              match digits with
              | [d1; d2; d3] =>
                  lex (LStr ((d1 * 4096 + d2 * 256 + d3 * 16 + d)%N :: acc))
                    toks r
              | _ => lex (LHex acc (digits ++ [d])) toks r
              end
          | None => None
          end
      | LNum acc =>
          if isNumberChar c then lex (LNum (c :: acc)) toks r
          else
            match numberToken acc, outStep c with
            | Some t, Some (m, t') => lex m (pushToken t' (t :: toks)) r
            | _, _ => None
            end
      | LWord acc =>
          if isLower c then lex (LWord (c :: acc)) toks r
          else
            match wordToken acc, outStep c with
            | Some t, Some (m, t') => lex m (pushToken t' (t :: toks)) r
            | _, _ => None
            end
      end
  end.

(** The parser: a stack of the containers that are open. *)
Inductive frame :=
| InArr (acc : list json)
| InObj (acc : list (jsstr * json)) (key : option jsstr).

Inductive pmode :=
| PValue      (* a value must follow *)
| PArrFirst   (* after an opening bracket: a value or the closing bracket *)
| PObjFirst   (* after an opening brace: a key or the closing brace *)
| PKey        (* after a comma in an object: a key *)
| PColon      (* after a key *)
| PAfter      (* after a value in a container *)
| PDone (v : json).

Definition pstate : Type := (list frame * pmode)%type.

(** A complete value goes into the innermost open container. *)
Definition pushValue (v : json) (stack : list frame) : option pstate :=
  match stack with
  | [] => Some ([], PDone v)
  | InArr acc :: rest => Some (InArr (v :: acc) :: rest, PAfter)
  | InObj acc (Some k) :: rest => Some (InObj ((k, v) :: acc) None :: rest, PAfter)
  | InObj _ None :: _ => None
  end.

Definition scalar (t : token) : option json :=
  match t with
  | TStr s => Some (JsString s)
  | TNum l => Some (JsNumber l)
  | TTrue => Some (JsBool true)
  | TFalse => Some (JsBool false)
  | TNull => Some JsNull
  | _ => None
  end.

Definition closeArray (stack : list frame) : option pstate :=
  match stack with
  | InArr acc :: rest => pushValue (JsArray (rev acc)) rest
  | _ => None
  end.

Definition closeObject (stack : list frame) : option pstate :=
  match stack with
  | InObj acc None :: rest => pushValue (JsObject (rev acc)) rest
  | _ => None
  end.

Definition startValue (t : token) (stack : list frame) : option pstate :=
  match t with
  | TLBracket => Some (InArr [] :: stack, PArrFirst)
  | TLBrace => Some (InObj [] None :: stack, PObjFirst)
  | _ =>
      match scalar t with
      | Some v => pushValue v stack
      | None => None
      end
  end.

Definition startKey (t : token) (stack : list frame) : option pstate :=
  match t, stack with
  | TStr k, InObj acc None :: rest => Some (InObj acc (Some k) :: rest, PColon)
  | _, _ => None
  end.

Definition pstep (st : pstate) (t : token) : option pstate :=
  let '(stack, mode) := st in
  match mode with
  | PValue => startValue t stack
  | PArrFirst =>
      match t with
      | TRBracket => closeArray stack
      | _ => startValue t stack
      end
  | PObjFirst =>
      match t with
      | TRBrace => closeObject stack
      | _ => startKey t stack
      end
  | PKey => startKey t stack
  | PColon =>
      match t with
      | TColon => Some (stack, PValue)
      | _ => None
      end
  | PAfter =>
      match t, stack with
      | TComma, InArr _ :: _ => Some (stack, PValue)
      | TComma, InObj _ _ :: _ => Some (stack, PKey)
      | TRBracket, _ => closeArray stack
      | TRBrace, _ => closeObject stack
      | _, _ => None
      end
  | PDone _ => None
  end.

Fixpoint parseTokens (st : pstate) (toks : list token) : option json :=
  match toks with
  | [] =>
      match st with
      | ([], PDone v) => Some v
      | _ => None
      end
  | t :: rest =>
      match pstep st t with
      | Some st' => parseTokens st' rest
      | None => None
      end
  end.

(** The value of a JSON text, when it is one. *)
Definition parse (s : jsstr) : option json :=
  match lex LOut [] s with
  | Some toks => parseTokens ([], PValue) toks
  | None => None
  end.

(** *** The object a list of members denotes *)

(** Defining a property that exists replaces its value where it stands. *)
Fixpoint setProp {A} (k : jsstr) (v : A) (props : list (jsstr * A))
  : list (jsstr * A) :=
  match props with
  | [] => [(k, v)]
  | (k', v') :: rest =>
      if jsstr_eqb k' k then (k, v) :: rest else (k', v') :: setProp k v rest
  end.

Definition properties {A} (members : list (jsstr * A)) : list (jsstr * A) :=
  fold_left (fun props m => setProp (fst m) (snd m) props) members [].

Definition digitsValue (s : jsstr) : N :=
  fold_left (fun n c => (n * 10 + (c - 48))%N) s 0%N.

(** A canonical array index: the decimal form of a number below
    [2^32 - 1]. *)
Definition isArrayIndex (k : jsstr) : bool :=
  match k with
  | [] => false
  | [48%N] => true
  | c :: r =>
      isDigit c && negb (c =? 48)%N && forallb isDigit r
      && (List.length k <=? 10)%nat && (digitsValue k <? 4294967295)%N
  end.

Fixpoint insertIndex {A} (p : jsstr * A) (sorted : list (jsstr * A))
  : list (jsstr * A) :=
  match sorted with
  | [] => [p]
  | q :: rest =>
      if (digitsValue (fst p) <? digitsValue (fst q))%N then p :: sorted
      else q :: insertIndex p rest
  end.

(** The own properties in enumeration order: array indices ascending,
    then the other keys as they were created. *)
Definition enumerate {A} (props : list (jsstr * A)) : list (jsstr * A) :=
  fold_right insertIndex [] (filter (fun p => isArrayIndex (fst p)) props)
    ++ filter (fun p => negb (isArrayIndex (fst p))) props.

Fixpoint getProp {A} (k : jsstr) (props : list (jsstr * A)) : option A :=
  match props with
  | [] => None
  | (k', v) :: rest => if jsstr_eqb k' k then Some v else getProp k rest
  end.

(** *** Reading a value at the type [ValeRawOutput] *)

Definition asString (v : json) : option jsstr :=
  match v with
  | JsString s => Some s
  | _ => None
  end.

(** An integer literal; numbers written with a fraction or an exponent
    are not read. *)
Definition asInteger (v : json) : option Z :=
  match v with
  | JsNumber (45%N :: ds) =>
      if forallb isDigit ds then Some (- Z.of_N (digitsValue ds))%Z else None
  | JsNumber ds =>
      if forallb isDigit ds then Some (Z.of_N (digitsValue ds)) else None
  | _ => None
  end.

Fixpoint traverse {A B} (f : A -> option B) (l : list A) : option (list B) :=
  match l with
  | [] => Some []
  | x :: rest =>
      match f x, traverse f rest with
      | Some y, Some ys => Some (y :: ys)
      | _, _ => None
      end
  end.

(** An optional string property: absent, or a string. *)
Definition optionalString (k : jsstr) (props : list (jsstr * json))
  : option (option jsstr) :=
  match getProp k props with
  | None => Some None
  | Some (JsString s) => Some (Some s)
  | Some _ => None
  end.

(** [Action] is never read by the program; it is kept when it has the
    declared shape and dropped otherwise. *)
Definition readAction (props : list (jsstr * json)) : option ValeAction :=
  match getProp (lit "Action") props with
  | Some (JsObject members) =>
      let fields := properties members in
      match getProp (lit "Name") fields, getProp (lit "Params") fields with
      | Some (JsString n), Some (JsArray ps) =>
          match traverse asString ps with
          | Some params => Some {| Name := n; Params := params |}
          | None => None
          end
      | _, _ => None
      end
  | _ => None
  end.

Definition readIssue (v : json) : option ValeIssue :=
  match v with
  | JsObject members =>
      let props := properties members in
      match getProp (lit "Line") props, getProp (lit "Span") props,
            getProp (lit "Check") props, getProp (lit "Message") props,
            getProp (lit "Severity") props,
            optionalString (lit "Link") props,
            optionalString (lit "Match") props with
      | Some l, Some (JsArray [a; b]), Some (JsString c), Some (JsString m),
        Some (JsString s), Some lk, Some mt =>
          match asInteger l, asInteger a, asInteger b with
          | Some l, Some a, Some b =>
              Some {| Line := l; Span := (a, b); Check := c; Message := m;
                      Severity := s; Link := lk; Match := mt;
                      Action := readAction props |}
          | _, _, _ => None
          end
      | _, _, _, _, _, _, _ => None
      end
  | _ => None
  end.

Definition readFile (entry : jsstr * json) : option (jsstr * list ValeIssue) :=
  match snd entry with
  | JsArray items => option_map (pair (fst entry)) (traverse readIssue items)
  | _ => None
  end.

Definition readRawOutput (v : json) : option ValeRawOutput :=
  match v with
  | JsObject members => traverse readFile (enumerate (properties members))
  | _ => None
  end.

(** [JSON.parse(text) as ValeRawOutput].  The engine's wording of a
    [SyntaxError] is not modelled: one message stands for all of them.
    The cast is unchecked in the program, so a well-formed text that is
    not a [ValeRawOutput] lies outside what the types describe; it is
    refused here, under a message of its own. *)
Definition JSON_parse (s : jsstr) : jsstr + ValeRawOutput :=
  match parse s with
  | None => inl (lit "Unexpected token in JSON")
  | Some v =>
      match readRawOutput v with
      | Some raw => inr raw
      | None => inl (lit "not a ValeRawOutput document")
      end
  end.

End JsonText.

(** POSIX [path], on the segments of a path. *)
Module PosixPath.

Definition slash : N := 47%N.

(** The segments between the slashes, the current one reversed in [cur]. *)
Fixpoint segments (cur : jsstr) (s : jsstr) : list jsstr :=
  match s with
  | [] => [rev cur]
  | c :: r =>
      if (c =? slash)%N then rev cur :: segments [] r
      else segments (c :: cur) r
  end.

Definition isDot (seg : jsstr) : bool := jsstr_eqb seg (lit ".").
Definition isDotDot (seg : jsstr) : bool := jsstr_eqb seg (lit "..").

(** [normalizeString]: the stack of segments kept so far, newest first. *)
Definition normalizeStep (allowAboveRoot : bool) (kept : list jsstr)
  (seg : jsstr) : list jsstr :=
  match seg with
  | [] => kept
  | _ =>
      if isDot seg then kept
      else if isDotDot seg then
        match kept with
        | top :: rest =>
            if isDotDot top then seg :: kept else rest
        | [] => if allowAboveRoot then [seg] else []
        end
      else seg :: kept
  end.

Definition normalizeString (p : jsstr) (allowAboveRoot : bool) : jsstr :=
  join [slash]
    (rev (fold_left (normalizeStep allowAboveRoot) (segments [] p) [])).

Definition isAbsolute (p : jsstr) : bool := startsWith [slash] p.

(** [path.resolve]: from the last argument back to the first absolute one,
    then the working directory. *)
Fixpoint resolveFrom (parts : list jsstr) (resolved : jsstr) : jsstr * bool :=
  match parts with
  | [] => (resolved, false)
  | p :: rest =>
      match p with
      | [] => resolveFrom rest resolved
      | _ =>
          let resolved := p ++ [slash] ++ resolved in
          if isAbsolute p then (resolved, true) else resolveFrom rest resolved
      end
  end.

Definition resolve (workingDir : jsstr) (parts : list jsstr) : jsstr :=
  let '(resolved, absolute) := resolveFrom (rev parts) [] in
  let resolved :=
    if absolute then resolved else workingDir ++ [slash] ++ resolved in
  match normalizeString resolved false with
  | [] => [slash]
  | n => slash :: n
  end.

(** [path.normalize] *)
Definition normalize (p : jsstr) : jsstr :=
  match p with
  | [] => lit "."
  | _ =>
      let absolute := isAbsolute p in
      let trailing := endsWith [slash] p in
      let n := normalizeString p (negb absolute) in
      let n :=
        match n with
        | [] => if absolute then [] else lit "."
        | _ => if trailing then n ++ [slash] else n
        end in
      if absolute then slash :: n else n
  end.

Definition isEmpty (s : jsstr) : bool :=
  match s with [] => true | _ => false end.

(** [path.join] *)
Definition pjoin (parts : list jsstr) : jsstr :=
  match filter (fun p => negb (isEmpty p)) parts with
  | [] => lit "."
  | nonEmpty => normalize (join [slash] nonEmpty)
  end.

Fixpoint dropSlashes (s : jsstr) : jsstr :=
  match s with
  | [] => []
  | c :: r => if (c =? slash)%N then dropSlashes r else s
  end.

Fixpoint dropNonSlashes (s : jsstr) : jsstr :=
  match s with
  | [] => []
  | c :: r => if (c =? slash)%N then s else dropNonSlashes r
  end.

(** [path.dirname]: the scan runs from the end of the path down to its
    second character. *)
Definition dirname (p : jsstr) : jsstr :=
  match p with
  | [] => lit "."
  | c0 :: rest =>
      let hasRoot := (c0 =? slash)%N in
      match dropNonSlashes (dropSlashes (rev rest)) with
      | [] => if hasRoot then [slash] else lit "."
      | _ :: before =>
          match before with
          | [] => if hasRoot then [slash; slash] else [c0]
          | _ => c0 :: rev before
          end
      end
  end.

End PosixPath.

(** A Linux host with the given environment, file system and external
    tool. *)
Definition posixHost (workingDir : jsstr) (env : option jsstr)
  (canRead : jsstr -> bool) (run : nat -> ExecCall -> ExecOutcome) : Host :=
  {| platform := lit "linux";
     cwd := workingDir;
     env_VALE_CONFIG_PATH := env;
     readable := canRead;
     path_isAbsolute := PosixPath.isAbsolute;
     path_resolve := PosixPath.resolve workingDir;
     path_join := PosixPath.pjoin;
     path_dirname := PosixPath.dirname;
     exec := run;
     JSON_parse := JsonText.JSON_parse;
     Error_stack := fun msg => Some (lit "Error: " ++ msg);
     destructure_message :=
       fun prop =>
         lit "Cannot destructure property '" ++ prop
           ++ lit "' of 'args' as it is undefined." |}.

(** ** Vocabulary of the specification *)

(** The severities the specification names. *)
Definition recognized (s : jsstr) : bool :=
  jsstr_eqb s (lit "error") || jsstr_eqb s (lit "warning")
  || jsstr_eqb s (lit "suggestion").

(** The number of issues that carry a severity tag. *)
Definition countSeverity (tag : jsstr) (l : list NormalizedValeIssue) : nat :=
  List.length (filter (hasSeverity tag) l).

(** The entries of the report: each issue that gets a block, with the key
    of the group it is printed under, in the order the two loops of
    [formatValeResults] visit them. *)
Definition entries (issues : list NormalizedValeIssue)
  : list (jsstr * NormalizedValeIssue) :=
  flat_map (fun group => map (pair (fst group)) (snd group)) (grouped issues).

(** A text inside a markdown code fence: a leading [```json] line and a
    trailing [```] line. *)
Definition fenced (t : jsstr) : jsstr :=
  lit "```json" ++ nl ++ t ++ nl ++ lit "```".

(** Parsing a raw text to its normalised issue list, as [checkFile] does
    with the standard output of the tool. *)
Definition parseIssues (h : Host) (t : jsstr)
  : Result (list NormalizedValeIssue) :=
  match parseValeOutput h t with
  | Returned raw => Returned (normalizeIssues raw)
  | Thrown msg => Thrown msg
  end.

(** The [ToolExecutionFailed] condition: the error [checkFile] throws
    when the external process gave it nothing to parse. *)
Definition ToolExecutionFailed {A} (r : Result A) : Prop :=
  exists diagnostic,
    r = Thrown (lit "Vale execution failed: " ++ diagnostic).

(** The [MalformedToolOutput] condition. *)
Definition MalformedToolOutput {A} (r : Result A) : Prop :=
  exists diagnostic,
    r = Thrown (lit "Failed to parse Vale JSON output: " ++ diagnostic).

(** The path [checkFile] hands to the tool and the command it runs. *)
Definition absolutePathOf (h : Host) (filePath : jsstr) : jsstr :=
  if path_isAbsolute h filePath then filePath
  else path_resolve h [cwd h; filePath].

Definition checkCall (h : Host) (filePath : jsstr) (configPath : option jsstr)
  : ExecCall :=
  (lit "vale --output=JSON"
     ++ (if truthy configPath
         then lit " --config=" ++ dquote ++ interpolate configPath ++ dquote
         else [])
     ++ lit " " ++ dquote ++ absolutePathOf h filePath ++ dquote,
   Some (path_dirname h (absolutePathOf h filePath))).

(** What [checkFile] makes of a raw output once it has one. *)
Definition analyseOutput (h : Host) (absolutePath stdout : jsstr)
  : Result CheckFileResult :=
  match parseValeOutput h stdout with
  | Returned rawOutput =>
      let issues := normalizeIssues rawOutput in
      let summary := generateSummary issues in
      Returned {| formatted := formatValeResults issues summary (Some absolutePath);
                  file := absolutePath;
                  issues := issues;
                  summary := summary |}
  | Thrown msg => Thrown msg
  end.

(** The diagnostic of a failed execution: [stderr || message ||
    "Unknown error"]. *)
Definition executionDiagnostic (e : ExecError) : jsstr :=
  interpolate
    (orElse (orElse (err_stderr e) (err_message e)) (Some (lit "Unknown error"))).

(** The process once [main] has run [initializeValeConfig]. *)
Definition startup (h : Host) : Process :=
  snd (initializeValeConfig h initialProcess).

(** Configuration resolution in the words of the specification (4.1).
    A relative path is resolved against the current working directory. *)
Definition spec_resolved (h : Host) (configured : jsstr) : jsstr :=
  if path_isAbsolute h configured then configured
  else path_resolve h [cwd h; configured].

(** The conventional configuration file: [.vale.ini] in the current
    working directory. *)
Definition spec_conventionFile (h : Host) : jsstr :=
  path_join h [cwd h; lit ".vale.ini"].

(** The process-wide configuration: the override of the environment, but
    only if it resolves to a readable file; otherwise the conventional
    file of the working directory, if readable; otherwise none. *)
Definition spec_processWideConfig (h : Host) : option jsstr :=
  let conventional :=
    if readable h (spec_conventionFile h)
    then Some (spec_conventionFile h) else None in
  match env_VALE_CONFIG_PATH h with
  | Some ((_ :: _) as override) =>
      if readable h (spec_resolved h override)
      then Some (spec_resolved h override)
      else conventional
  | _ => conventional
  end.

(** The configuration of one call: an explicit per-call path wins over
    the process-wide one. *)
Definition spec_configPriority (h : Host) (perCall : option jsstr)
  : option jsstr :=
  match perCall with
  | Some (_ :: _) => perCall
  | _ => spec_processWideConfig h
  end.

(** The warning [initializeValeConfig] logs for an unusable override. *)
Definition overrideWarning (override : jsstr) : jsstr :=
  lit "WARNING: VALE_CONFIG_PATH points to non-existent file: " ++ override.

(** How the [vale_sync] case renders the outcome of a sync. *)
Definition renderSync (syncResult : SyncResult) : Response :=
  if success syncResult
  then textResponse (syncSuccessText syncResult)
  else textResponse (syncFailureText syncResult).




(** [n] probes in a row: the status each one returned, and the process
    after the last. *)
Fixpoint probes (h : Host) (n : nat) (p : Process)
  : list (Result InstallationStatus) * Process :=
  match n with
  | O => ([], p)
  | S n' =>
      let '(r, p') := checkValeInstalled h p in
      let '(rs, p'') := probes h n' p' in
      (r :: rs, p'')
  end.

(** ** Sample data *)

(** An issue with the given severity and line, and the other fields of the
    end-to-end scenario of the specification. *)
Definition sampleIssue (tag : jsstr) (n : Z) : NormalizedValeIssue :=
  {| line := n; span := (1%Z, 5%Z); check := lit "Vale.Spelling";
     message := lit "Typo"; severity := tag; link := None; match_ := None |}.

Definition sampleRawIssue (tag : jsstr) (n : Z) : ValeIssue :=
  {| Line := n; Span := (1%Z, 5%Z); Check := lit "Vale.Spelling";
     Message := lit "Typo"; Severity := tag; Link := None; Match := None;
     Action := None |}.

(** Three issues out of severity order, and the raw output they come
    from. *)
Definition mixedIssues : list NormalizedValeIssue :=
  [ sampleIssue (lit "warning") 7; sampleIssue (lit "error") 3;
    sampleIssue (lit "warning") 9 ].

(** ** Sample hosts *)

(** What [exec] rejects with when the command cannot be run. *)
Definition commandNotFound : ExecError :=
  {| instanceofError := true;
     err_message := Some (lit "Command failed: vale --version");
     err_stdout := Some [];
     err_stderr := Some (lit "/bin/sh: 1: vale: not found") |}.

(** A Linux host, working directory [/work], whose external tool answers
    the successive calls with the outcomes of [script], and fails to run
    after that. *)
Definition scriptedHost (env : option jsstr) (canRead : jsstr -> bool)
  (script : list ExecOutcome) : Host :=
  posixHost (lit "/work") env canRead
    (fun n _ => nth n script (Rejected commandNotFound)).

(** A host on which every file is readable and the tool prints nothing
    and exits with status zero. *)
Definition silentHost : Host :=
  posixHost (lit "/work") None (fun _ => true) (fun _ _ => Resolved [] []).

(** The empty document in a code fence. *)
Definition fencedEmptyObject : jsstr := fenced (lit "{}").

(** The command of the version query, and the cache a probe stores for
    each outcome of it. *)
Definition versionQuery : ExecCall := (lit "vale --version", None).

Definition probedCache (out : ExecOutcome) : InstallCache :=
  match out with
  | Resolved stdout _ =>
      {| checked := true; installed := true;
         version := Some (trim stdout); error := None |}
  | Rejected e =>
      {| checked := true; installed := false; version := None;
         error :=
           if instanceofError e then err_message e
           else Some (lit "Vale not found in PATH. To install Vale, go to https://vale.sh/docs/vale-cli/installation/") |}
  end.

(** The process after a probe that ran the version query. *)
Definition probedProcess (h : Host) (p : Process) : Process :=
  {| valeInstallCache :=
       probedCache (exec h (List.length (execLog p)) versionQuery);
     valeConfigPath := valeConfigPath p;
     execLog := execLog p ++ [versionQuery];
     stderrLog := stderrLog p |}.

(** A host on which the tool cannot be run at all. *)
Definition brokenHost : Host := scriptedHost None (fun _ => true) [].

(** A file of the working directory. *)
Definition sampleFile : jsstr := lit "/work/a.md".

(** The result of a check that found no issue in [sampleFile]. *)
Definition cleanResult : CheckFileResult :=
  {| formatted := noIssuesMessage;
     file := sampleFile;
     issues := [];
     summary := {| total := 0; errors := 0; warnings := 0; suggestions := 0 |} |}.

(** A [check_file] request. *)
Definition checkFileRequest (args : option ToolArguments) : Request :=
  {| name := lit "check_file"; arguments := args |}.

(** A [vale_status] request. *)
Definition statusRequest (args : option ToolArguments) : Request :=
  {| name := lit "vale_status"; arguments := args |}.

(** A [vale_sync] request. *)
Definition syncRequest (args : option ToolArguments) : Request :=
  {| name := lit "vale_sync"; arguments := args |}.

Definition noArguments : ToolArguments :=
  {| path := None; config_path := None |}.

Definition emptyPathArguments : ToolArguments :=
  {| path := Some []; config_path := None |}.

(** The response of [check_file] to a completed check. *)
Definition checkFileResponse (result : CheckFileResult) : Response :=
  {| text := formatted result;
     structured_data :=
       Some {| sd_file := file result;
               sd_issues := issues result;
               sd_summary := summary result |} |}.

(** A host with the tool installed, whose environment names a
    configuration file that does not exist, and whose working directory
    holds a readable [.vale.ini]. *)
Definition overrideHost : Host :=
  scriptedHost (Some (lit "missing.ini"))
    (fun file => jsstr_eqb file (lit "/work/.vale.ini"))
    [Resolved (lit "vale version 3.7.1" ++ nl) []].

(** Arguments of a [vale_sync] call that names its own configuration. *)
Definition perCallArguments : ToolArguments :=
  {| path := None; config_path := Some (lit "/etc/vale.ini") |}.

(** A process with more lines on its error stream, and a process with
    another process-wide configuration. *)
Definition appendLog (p : Process) (lines : list jsstr) : Process :=
  {| valeInstallCache := valeInstallCache p;
     valeConfigPath := valeConfigPath p;
     execLog := execLog p;
     stderrLog := stderrLog p ++ lines |}.

Definition withConfig (p : Process) (c : option jsstr) : Process :=
  {| valeInstallCache := valeInstallCache p;
     valeConfigPath := c;
     execLog := execLog p;
     stderrLog := stderrLog p |}.

(** An ASCII literal between double quotes. *)
Definition quoted (s : string) : jsstr := dquote ++ lit s ++ dquote.

(** The raw output of the end-to-end scenario of the specification: one
    file, one issue. *)
Definition scenarioOutput : jsstr :=
  lit "{" ++ quoted "a.md" ++ lit ":[{"
    ++ quoted "Line" ++ lit ":3,"
    ++ quoted "Span" ++ lit ":[1,5],"
    ++ quoted "Check" ++ lit ":" ++ quoted "Vale.Spelling" ++ lit ","
    ++ quoted "Message" ++ lit ":" ++ quoted "Typo" ++ lit ","
    ++ quoted "Severity" ++ lit ":" ++ quoted "error"
    ++ lit "}]}".

(** ** The advertised tools of index.ts *)

Record ToolProperty := {
  property_name : jsstr;
  property_type : jsstr;
  property_description : jsstr
}.

(** A [Tool]: its name, its description, and of its [inputSchema] the
    properties and the [required] list, when there is one. *)
Record Tool := {
  tool_name : jsstr;
  tool_description : jsstr;
  tool_properties : list ToolProperty;
  tool_required : option (list jsstr)
}.

Definition TOOLS : list Tool :=
  [ {| tool_name := lit "vale_status";
       tool_description := lit "Check if Vale (vale.sh) is installed and accessible. Use this first if other Vale tools fail. Returns installation status, version if available, and installation instructions for the current platform.";
       tool_properties := [];
       tool_required := None |};
    {| tool_name := lit "vale_sync";
       tool_description := lit "Download Vale styles and packages by running 'vale sync'. Use this when you see errors about missing styles directories (E100 errors like 'The path does not exist'). This command reads the .vale.ini configuration and downloads the required style packages.";
       tool_properties :=
         [ {| property_name := lit "config_path";
              property_type := lit "string";
              property_description := lit "Optional path to .vale.ini file. If not provided, uses the server's configured path or searches in the current directory." |} ];
       tool_required := None |};
    {| tool_name := lit "check_file";
       tool_description := lit "Lint a file at a specific path against Vale style rules. Returns issues found with their locations and severity. If Vale is not installed, returns error with installation guidance.";
       tool_properties :=
         [ {| property_name := lit "path";
              property_type := lit "string";
              property_description := lit "Absolute or relative path to the file to check" |} ];
       tool_required := Some [lit "path"] |} ].

(** The handler of [ListToolsRequestSchema]. *)
Definition listTools : list Tool := TOOLS.

(** ** Further vocabulary *)

(** The response of the [default] branch of the handler. *)
Definition unknownToolResponse (toolName : jsstr) : Response :=
  textResponse
    (JSON_stringify
       (JObject [ (lit "error", JString (lit "Unknown tool: " ++ toolName)) ])
       0).

(** The command [syncValeStyles] runs and the directory it runs it in. *)
Definition syncCall (h : Host) (configPath : option jsstr) : ExecCall :=
  if truthy configPath && readable h (interpolate configPath)
  then (lit "vale sync" ++ lit " --config=" ++ dquote
          ++ interpolate configPath ++ dquote,
        Some (path_dirname h (path_resolve h [interpolate configPath])))
  else (lit "vale sync", Some (cwd h)).

(** The warning [syncValeStyles] logs for a configuration it cannot
    read. *)
Definition inaccessibleWarning (configPath : jsstr) : jsstr :=
  lit "Warning: Config path " ++ configPath ++ lit " is not accessible".

(** Requests served one after the other: the responses, and the process
    after the last. *)
Fixpoint serve (h : Host) (requests : list Request) (p : Process)
  : list (Result Response) * Process :=
  match requests with
  | [] => ([], p)
  | request :: rest =>
      let '(r, p') := callTool h request p in
      let '(rs, p'') := serve h rest p' in
      (r :: rs, p'')
  end.

(** The [FileNotFound] condition of [checkFile]. *)
Definition fileNotFoundMessage (filePath : jsstr) : jsstr :=
  lit "File not found or not readable: " ++ filePath.

(** An issue with another [Action]. *)
Definition withAction (issue : ValeIssue) (action : option ValeAction)
  : ValeIssue :=
  {| Line := Line issue; Span := Span issue; Check := Check issue;
     Message := Message issue; Severity := Severity issue;
     Link := Link issue; Match := Match issue; Action := action |}.

(** A host on which the tool is installed and every check ends in the
    error Vale reports for a missing styles directory. *)
Definition missingStylesError : ExecError :=
  {| instanceofError := true;
     err_message := Some (lit "Command failed: vale --output=JSON");
     err_stdout := Some [];
     err_stderr := Some (lit "E100 [loadStyles] Runtime error") |}.

Definition missingStylesHost : Host :=
  scriptedHost None (fun _ => true)
    [Resolved (lit "vale version 3.7.1" ++ nl) []; Rejected missingStylesError].

(** A host with the tool installed on which no file can be read. *)
Definition unreadableHost : Host :=
  scriptedHost None (fun _ => false)
    [Resolved (lit "vale version 3.7.1" ++ nl) []].

Definition sampleFileArguments : ToolArguments :=
  {| path := Some sampleFile; config_path := None |}.

(** The payload of the [catch] clause for a failure that is not taken for
    a missing styles directory. *)
Definition genericErrorText (h : Host) (errorMessage : jsstr) : jsstr :=
  JSON_stringify
    (JObject [ (lit "error", JString errorMessage);
               (lit "details", optString (Error_stack h errorMessage)) ])
    0.

(** A request for a file whose name holds the code Vale prints for a
    missing styles directory. *)
Definition stylesNamedArguments : ToolArguments :=
  {| path := Some (lit "/work/e100-notes.md"); config_path := None |}.

(** A host whose tool answers the first command with the raw output of
    the scenario. *)
Definition scenarioHost : Host :=
  scriptedHost None (fun _ => true) [Resolved scenarioOutput []].

(** What [checkFile] returns for [a.md] on that host. *)
Definition scenarioResult : CheckFileResult :=
  {| formatted :=
       formatValeResults [sampleIssue (lit "error") 3]
         {| total := 1; errors := 1; warnings := 0; suggestions := 0 |}
         (Some sampleFile);
     file := sampleFile;
     issues := [sampleIssue (lit "error") 3];
     summary := {| total := 1; errors := 1; warnings := 0; suggestions := 0 |} |}.

(** The standard output and standard error of a sync as
    [syncValeStyles] reports them. *)
Definition syncOutput (stdout stderr : jsstr) : jsstr :=
  trim (stdout ++ match stderr with [] => [] | _ => nl ++ stderr end).

Definition isResolved (out : ExecOutcome) : bool :=
  match out with
  | Resolved _ _ => true
  | Rejected _ => false
  end.

(** The member [key] of an arguments object, as the handlers'
    destructuring reads it. *)
Definition argument (args : ToolArguments) (key : jsstr) : option jsstr :=
  if jsstr_eqb key (lit "path") then path args
  else if jsstr_eqb key (lit "config_path") then config_path args
  else None.

(** A request for an advertised tool. *)
Definition requestFor (tool : Tool) (args : ToolArguments) : Request :=
  {| name := tool_name tool; arguments := Some args |}.

(** Arguments for the sample file with another configuration. *)
Definition sampleFileOtherConfig : ToolArguments :=
  {| path := Some sampleFile; config_path := Some (lit "other.ini") |}.


(** ** The status response in the words of the specification *)





(** A host with the tool, an override that names a missing file, a
    [.vale.ini] in the working directory and a readable
    [/etc/vale.ini]. *)
Definition layeredHost : Host :=
  scriptedHost (Some (lit "missing.ini"))
    (fun file =>
       jsstr_eqb file (lit "/work/.vale.ini")
       || jsstr_eqb file (lit "/etc/vale.ini"))
    [Resolved (lit "vale version 3.7.1" ++ nl) []].


(** ** The report in the words of the specification (4.4) *)

(** A rendering of numbers agrees with the engine's on the safe integers,
    which it prints in decimal digits. *)
Definition rendersSafeIntegers (numeral : Z -> jsstr) : Prop :=
  forall z, (Z.abs z <= 9007199254740991)%Z -> numeral z = Z_toString z.

(** The text of one entry: the mark of the severity, the line number, the
    severity label and the message; the matched text, if there is one;
    the rule; the link, if there is one; an empty line. *)
Definition spec_entry (numeral : Z -> jsstr) (mark label : jsstr)
  (i : NormalizedValeIssue) : jsstr :=
  mark ++ lit " **Line " ++ numeral (line i) ++ lit "** (" ++ label
    ++ lit "): " ++ message i ++ nl
    ++ match match_ i with
       | Some ((_ :: _) as found) =>
           lit "   " ++ [8627%N] ++ lit " Found: " ++ dquote ++ found
             ++ dquote ++ nl
       | _ => []
       end
    ++ lit "   " ++ [8627%N] ++ lit " Rule: `" ++ check i ++ lit "`" ++ nl
    ++ match link i with
       | Some ((_ :: _) as target) =>
           lit "   " ++ [8627%N] ++ lit " [More info](" ++ target ++ lit ")"
             ++ nl
       | _ => []
       end
    ++ nl.

(** A count with its noun, in the singular for one and in the plural
    otherwise. *)
Definition spec_count (numeral : Z -> jsstr) (count : nat) (noun : jsstr)
  : jsstr :=
  numeral (Z.of_nat count) ++ lit " " ++ noun
    ++ (if Nat.eqb count 1 then [] else lit "s").

(** The parenthesised clause of the summary line: the severity counts
    that are not zero, joined by commas; nothing when all are zero. *)
Definition spec_clause (numeral : Z -> jsstr) (summary : ValeSummary) : jsstr :=
  match
    filter (fun c => negb (Nat.eqb (fst c) 0))
      [ (errors summary, lit "error"); (warnings summary, lit "warning");
        (suggestions summary, lit "suggestion") ]
  with
  | [] => []
  | counts =>
      lit " ("
        ++ join (lit ", ")
             (map (fun c => spec_count numeral (fst c) (snd c)) counts)
        ++ lit ")"
  end.

(** What comes before the entries: the header, the context line if a
    context is given, the summary line, and the heading of the entries. *)
Definition spec_head (numeral : Z -> jsstr) (summary : ValeSummary)
  (context : option jsstr) : jsstr :=
  lit "## Vale Linting Results" ++ nl ++ nl
    ++ match context with
       | Some ((_ :: _) as label) => lit "**Context:** " ++ label ++ nl ++ nl
       | _ => []
       end
    ++ lit "**Summary:** " ++ spec_count numeral (total summary) (lit "issue")
    ++ lit " found" ++ spec_clause numeral summary ++ nl ++ nl
    ++ lit "### Issues" ++ nl ++ nl.

(** The mark and the label of the entries of a severity. *)
Definition spec_mark (tag : jsstr) : jsstr :=
  if jsstr_eqb tag (lit "error") then [55357; 56628]%N
  else if jsstr_eqb tag (lit "warning") then [55357; 57313]%N
  else [55357; 56481]%N.

Definition spec_label (tag : jsstr) : jsstr :=
  if jsstr_eqb tag (lit "error") then lit "ERROR"
  else if jsstr_eqb tag (lit "warning") then lit "WARNING"
  else lit "SUGGESTION".

(** Two issues that no severity group takes, around one that the error
    group takes. *)
Definition partlyRecognized : list NormalizedValeIssue :=
  [ sampleIssue (lit "info") 1; sampleIssue (lit "error") 3;
    sampleIssue (lit "Error") 5 ].


(** A host without the tool, with an override that names a missing file
    and a [.vale.ini] in the working directory. *)
Definition toollessHost : Host :=
  scriptedHost (Some (lit "missing.ini"))
    (fun file => jsstr_eqb file (lit "/work/.vale.ini")) [].


(** * Properties *)

(** ** Strings *)

Lemma jsstr_eqb_refl (a : jsstr) : jsstr_eqb a a = true.
Proof.
  induction a as [|x a IH]; simpl; [reflexivity|].
  now rewrite N.eqb_refl, IH.
Qed.

Lemma jsstr_eqb_eq (a b : jsstr) : jsstr_eqb a b = true <-> a = b.
Proof.
  split.
  - revert b. induction a as [|x a IH]; intros [|y b] E; simpl in E;
      try discriminate; [reflexivity|].
    apply andb_true_iff in E. destruct E as [E1 E2].
    apply N.eqb_eq in E1. apply IH in E2. now subst.
  - intros ->. apply jsstr_eqb_refl.
Qed.

Lemma jsstr_eqb_neq (a b : jsstr) : jsstr_eqb a b = false <-> a <> b.
Proof.
  rewrite <- jsstr_eqb_eq. destruct (jsstr_eqb a b); split; congruence.
Qed.

(** Turn the tests of the severity of [i] into comparisons of strings,
    then split on which tag, if any, that severity is. *)
Ltac expose_severity i :=
  repeat match goal with
  | |- context [hasSeverity ?t i] =>
      change (hasSeverity t i) with (jsstr_eqb (severity i) t)
  end.

(** Decide the comparisons of two literals that stand in the goal. *)
Ltac compare_literals :=
  repeat match goal with
  | |- context [jsstr_eqb (lit ?a) (lit ?b)] =>
      let v := eval vm_compute in (jsstr_eqb (lit a) (lit b)) in
      change (jsstr_eqb (lit a) (lit b)) with v
  end.

Ltac severity_cases i :=
  let E := fresh "E" in
  destruct (jsstr_eqb (severity i) (lit "error")) eqn:E;
  [ apply jsstr_eqb_eq in E; rewrite ?E; compare_literals
  | clear E; destruct (jsstr_eqb (severity i) (lit "warning")) eqn:E;
    [ apply jsstr_eqb_eq in E; rewrite ?E; compare_literals
    | clear E; destruct (jsstr_eqb (severity i) (lit "suggestion")) eqn:E;
      [ apply jsstr_eqb_eq in E; rewrite ?E; compare_literals | ] ] ];
  cbn [List.length orb andb].

(** ** Summary computation *)

(** One pass of the loop adds, to each bucket, the number of issues that
    carry its tag, and leaves [total] alone. *)
Lemma fold_countIssue (l : list NormalizedValeIssue) (s : ValeSummary) :
  let r := fold_left countIssue l s in
  total r = total s
  /\ errors r = errors s + countSeverity (lit "error") l
  /\ warnings r = warnings s + countSeverity (lit "warning") l
  /\ suggestions r = suggestions s + countSeverity (lit "suggestion") l.
Proof.
  revert s. induction l as [|i l IH]; intros s.
  - cbn. repeat split; lia.
  - cbn zeta. cbn [fold_left].
    specialize (IH (countIssue s i)). cbn zeta in IH.
    destruct IH as (Ht & He & Hw & Hs).
    rewrite Ht, He, Hw, Hs. clear Ht He Hw Hs.
    unfold countSeverity, countIssue. cbn [filter]. expose_severity i.
    severity_cases i; cbn [total errors warnings suggestions];
      repeat split; lia.
Qed.

Lemma generateSummary_counts (l : list NormalizedValeIssue) :
  total (generateSummary l) = List.length l
  /\ errors (generateSummary l) = countSeverity (lit "error") l
  /\ warnings (generateSummary l) = countSeverity (lit "warning") l
  /\ suggestions (generateSummary l) = countSeverity (lit "suggestion") l.
Proof.
  unfold generateSummary.
  pose proof (fold_countIssue l
    {| total := List.length l; errors := 0; warnings := 0; suggestions := 0 |})
    as H.
  cbn zeta in H. cbn [total errors warnings suggestions] in H.
  destruct H as (Ht & He & Hw & Hs). repeat split; assumption.
Qed.

(** The three buckets together hold the issues with a recognised
    severity. *)
Lemma buckets_recognized (l : list NormalizedValeIssue) :
  countSeverity (lit "error") l + countSeverity (lit "warning") l + countSeverity (lit "suggestion") l
  = List.length (filter (fun i => recognized (severity i)) l).
Proof.
  unfold countSeverity. induction l as [|i l IH]; [reflexivity|].
  cbn [filter]. expose_severity i. unfold recognized at 1.
  severity_cases i; lia.
Qed.

Lemma filter_length_all {A} (f : A -> bool) (l : list A) :
  List.length (filter f l) = List.length l <-> forallb f l = true.
Proof.
  induction l as [|x l IH]; cbn; [tauto|].
  pose proof (filter_length_le f l) as Hle.
  destruct (f x); cbn.
  - rewrite <- IH. lia.
  - split; [lia | discriminate].
Qed.


(** C2 (as amended).  For any issue list, [total] of the summary is the
    length of the list; and [total] equals
    [errors + warnings + suggestions] exactly when every issue's severity
    is one of error, warning, suggestion. *)
Theorem generateSummary_total (l : list NormalizedValeIssue) :
  total (generateSummary l) = List.length l
  /\ (total (generateSummary l)
        = errors (generateSummary l) + warnings (generateSummary l)
          + suggestions (generateSummary l)
      <-> forallb (fun i => recognized (severity i)) l = true).
Proof.
  destruct (generateSummary_counts l) as (Ht & He & Hw & Hs).
  split; [exact Ht|].
  rewrite Ht, He, Hw, Hs, buckets_recognized, <- filter_length_all.
  split; intros H; symmetry; exact H.
Qed.

(** C2, as it was stated, fails: one issue whose severity is none of the
    three tags is counted in [total] and in no bucket. *)
Lemma generateSummary_unrecognized_severity :
  total (generateSummary [sampleIssue (lit "info") 3]) = 1
  /\ errors (generateSummary [sampleIssue (lit "info") 3])
     + warnings (generateSummary [sampleIssue (lit "info") 3])
     + suggestions (generateSummary [sampleIssue (lit "info") 3]) = 0.
Proof. split; reflexivity. Qed.

(** ** Normalisation *)

Lemma fold_push {A B} (f : A -> B) (l : list A) (acc : list B) :
  fold_left (fun normalized x => normalized ++ [f x]) l acc = acc ++ map f l.
Proof.
  revert acc. induction l as [|x l IH]; intros acc; cbn.
  - now rewrite app_nil_r.
  - rewrite IH, <- app_assoc. reflexivity.
Qed.

Lemma normalizeIssues_from (issues : ValeRawOutput)
  (acc : list NormalizedValeIssue) :
  fold_left
    (fun normalized entry =>
       fold_left
         (fun normalized issue => normalized ++ [normalizeIssue issue])
         (snd entry) normalized)
    issues acc
  = acc ++ flat_map (fun entry => map normalizeIssue (snd entry)) issues.
Proof.
  revert acc. induction issues as [|e issues IH]; intros acc; cbn.
  - now rewrite app_nil_r.
  - rewrite IH, fold_push, <- app_assoc. reflexivity.
Qed.

Lemma normalizeIssues_flat_map (issues : ValeRawOutput) :
  normalizeIssues issues
  = flat_map (fun entry => map normalizeIssue (snd entry)) issues.
Proof. unfold normalizeIssues. now rewrite normalizeIssues_from. Qed.

Lemma flat_map_length_sum {A B} (f : A -> list B) (l : list A) :
  List.length (flat_map f l) = list_sum (map (fun x => List.length (f x)) l).
Proof.
  induction l as [|x l IH]; cbn; [reflexivity|].
  now rewrite length_app, IH.
Qed.

(** C10.  Whatever the number of file keys, normalisation returns the
    concatenation of the files' issue lists in key-enumeration order, and
    each normalised issue carries the line, span, check, message,
    severity, link and match of the raw issue at its place, and nothing
    else; so the length of the result, and [total] of its summary, is the
    sum of the per-file issue counts; and the result does not depend on
    the keys: nothing in a normalised issue says which file it came
    from. *)
Theorem normalizeIssues_concatenates (issues : ValeRawOutput) :
  normalizeIssues issues
    = List.concat
        (map (fun entry =>
                map (fun issue =>
                       {| line := Line issue;
                          span := Span issue;
                          check := Check issue;
                          message := Message issue;
                          severity := Severity issue;
                          link := Link issue;
                          match_ := Match issue |})
                  (snd entry))
           issues)
  /\ List.length (normalizeIssues issues)
     = list_sum (map (fun entry => List.length (snd entry)) issues)
  /\ total (generateSummary (normalizeIssues issues))
     = list_sum (map (fun entry => List.length (snd entry)) issues)
  /\ (forall rename : jsstr -> jsstr,
        normalizeIssues (map (fun entry => (rename (fst entry), snd entry)) issues)
        = normalizeIssues issues).
Proof.
  assert (L : List.length (normalizeIssues issues)
              = list_sum (map (fun entry => List.length (snd entry)) issues)).
  { rewrite normalizeIssues_flat_map, flat_map_length_sum.
    f_equal. apply map_ext. intros e. apply length_map. }
  repeat split.
  - rewrite normalizeIssues_flat_map. apply flat_map_concat_map.
  - exact L.
  - destruct (generateSummary_counts (normalizeIssues issues)) as (Ht & _).
    now rewrite Ht.
  - intros rename. rewrite !normalizeIssues_flat_map. clear L.
    induction issues as [|e issues IH]; cbn; [reflexivity|].
    now rewrite IH.
Qed.

(** ** The report *)

Lemma jsstr_eqb_sym (a b : jsstr) : jsstr_eqb a b = jsstr_eqb b a.
Proof.
  destruct (jsstr_eqb a b) eqn:E.
  - apply jsstr_eqb_eq in E. subst. now rewrite jsstr_eqb_refl.
  - symmetry. apply jsstr_eqb_neq. apply jsstr_eqb_neq in E. congruence.
Qed.

Lemma fold_append {A} (f : A -> jsstr) (l : list A) (acc : jsstr) :
  fold_left (fun output x => output ++ f x) l acc = acc ++ flat_map f l.
Proof.
  revert acc. induction l as [|x l IH]; intros acc; cbn.
  - now rewrite app_nil_r.
  - rewrite IH, <- app_assoc. reflexivity.
Qed.

(** What the loop over one group appends, the skipped empty group
    included. *)
Lemma group_blocks (key : jsstr) (group : list NormalizedValeIssue)
  (acc : jsstr) :
  match group with
  | [] => acc
  | _ => fold_left (fun output issue => output ++ issueBlock key issue) group acc
  end
  = acc ++ flat_map (issueBlock key) group.
Proof.
  destruct group as [|i group].
  - cbn. now rewrite app_nil_r.
  - apply fold_append.
Qed.

Lemma flat_map_pair (key : jsstr) (group : list NormalizedValeIssue) :
  flat_map (fun e => issueBlock (fst e) (snd e)) (map (pair key) group)
  = flat_map (issueBlock key) group.
Proof. induction group as [|i g IH]; cbn; [reflexivity | now rewrite IH]. Qed.

Lemma entries_groups (issues : list NormalizedValeIssue) :
  entries issues
  = map (pair (lit "error")) (filter (hasSeverity (lit "error")) issues)
    ++ map (pair (lit "warning")) (filter (hasSeverity (lit "warning")) issues)
    ++ map (pair (lit "suggestion"))
         (filter (hasSeverity (lit "suggestion")) issues).
Proof. unfold entries, grouped. cbn [flat_map fst snd]. now rewrite app_nil_r. Qed.

Lemma formatValeResults_blocks (issues : list NormalizedValeIssue)
  (summary : ValeSummary) (context : option jsstr) :
  issues <> [] ->
  formatValeResults issues summary context
  = reportHead summary context
    ++ flat_map (fun e => issueBlock (fst e) (snd e)) (entries issues).
Proof.
  intros Hne. destruct issues as [|i issues]; [congruence|].
  unfold formatValeResults. rewrite entries_groups.
  unfold grouped. cbn [fold_left].
  rewrite !group_blocks, !flat_map_app, !flat_map_pair, <- !app_assoc.
  reflexivity.
Qed.

Lemma nat_toString_Z (n : nat) : nat_toString n = Z_toString (Z.of_nat n).
Proof. destruct n; reflexivity. Qed.

Lemma Z_toString_safe : rendersSafeIntegers Z_toString.
Proof. intros z _. reflexivity. Qed.

(** The block of an issue under each of the three keys. *)
Lemma issueBlock_entry (i : NormalizedValeIssue) :
  issueBlock (lit "error") i
    = spec_entry Z_toString [55357; 56628]%N (lit "ERROR") i
  /\ issueBlock (lit "warning") i
     = spec_entry Z_toString [55357; 57313]%N (lit "WARNING") i
  /\ issueBlock (lit "suggestion") i
     = spec_entry Z_toString [55357; 56481]%N (lit "SUGGESTION") i.
Proof.
  unfold issueBlock, spec_entry, arrow.
  change (lookupKey (lit "error") severityEmoji) with (Some [55357; 56628]%N).
  change (lookupKey (lit "warning") severityEmoji) with (Some [55357; 57313]%N).
  change (lookupKey (lit "suggestion") severityEmoji)
    with (Some [55357; 56481]%N).
  change (toUpperCase (lit "error")) with (lit "ERROR").
  change (toUpperCase (lit "warning")) with (lit "WARNING").
  change (toUpperCase (lit "suggestion")) with (lit "SUGGESTION").
  destruct (match_ i) as [[|m ms]|], (link i) as [[|l ls]|];
    cbn [truthy interpolate]; cbv iota;
    repeat split; rewrite <- ?app_assoc, ?app_nil_l; reflexivity.
Qed.

Lemma summaryParts_counts (summary : ValeSummary) :
  summaryParts summary
  = map (fun c => spec_count Z_toString (fst c) (snd c))
      (filter (fun c => negb (Nat.eqb (fst c) 0))
         [ (errors summary, lit "error"); (warnings summary, lit "warning");
           (suggestions summary, lit "suggestion") ]).
Proof.
  unfold summaryParts, plural.
  destruct (errors summary) as [|e], (warnings summary) as [|w],
    (suggestions summary) as [|g];
    cbn [filter Nat.ltb Nat.leb Nat.eqb negb app map fst snd];
    unfold spec_count; rewrite <- ?nat_toString_Z; cbn [fst snd];
    rewrite <- ?app_assoc; reflexivity.
Qed.

Lemma reportHead_head (summary : ValeSummary) (context : option jsstr) :
  reportHead summary context = spec_head Z_toString summary context.
Proof.
  unfold reportHead, spec_head, spec_clause.
  rewrite summaryParts_counts.
  set (counts := filter _ _).
  assert (E : spec_count Z_toString (total summary) (lit "issue")
              = nat_toString (total summary) ++ lit " issue"
                  ++ plural (total summary)).
  { unfold spec_count, plural. now rewrite <- nat_toString_Z. }
  rewrite E.
  destruct context as [[|c cs]|]; cbn [truthy interpolate]; cbv iota;
    destruct counts as [|c0 counts]; cbn [map];
    rewrite <- ?app_assoc, ?app_nil_l; reflexivity.
Qed.

(** The text of the report of a non-empty issue list. *)
Lemma formatValeResults_text (issues : list NormalizedValeIssue)
  (summary : ValeSummary) (context : option jsstr) :
  issues <> [] ->
  formatValeResults issues summary context
  = spec_head Z_toString summary context
    ++ flat_map (spec_entry Z_toString [55357; 56628]%N (lit "ERROR"))
         (filter (hasSeverity (lit "error")) issues)
    ++ flat_map (spec_entry Z_toString [55357; 57313]%N (lit "WARNING"))
         (filter (hasSeverity (lit "warning")) issues)
    ++ flat_map (spec_entry Z_toString [55357; 56481]%N (lit "SUGGESTION"))
         (filter (hasSeverity (lit "suggestion")) issues).
Proof.
  intros Hne. rewrite (formatValeResults_blocks issues summary context Hne).
  rewrite reportHead_head, entries_groups, !flat_map_app, !flat_map_pair.
  f_equal. f_equal; [|f_equal]; apply flat_map_ext; intros i;
    apply (issueBlock_entry i).
Qed.

(** C3.  The report of a non-empty issue list is the head, then the
    entries of the issues whose severity is [error], then those of the
    warnings, then those of the suggestions, the issues of each group in
    the order of the input, each entry under the label of its group.  The
    parenthesised clause of the summary line in the head lists the counts
    of the three severities that are not zero, and only those.
    [numeral] is the engine's rendering of a number: decimal digits on
    the safe integers. *)
Theorem formatValeResults_groups (issues : list NormalizedValeIssue)
  (summary : ValeSummary) (context : option jsstr) :
  issues <> [] ->
  exists numeral : Z -> jsstr,
    rendersSafeIntegers numeral
    /\ formatValeResults issues summary context
       = spec_head numeral summary context
         ++ flat_map (spec_entry numeral [55357; 56628]%N (lit "ERROR"))
              (filter (fun i => jsstr_eqb (severity i) (lit "error")) issues)
         ++ flat_map (spec_entry numeral [55357; 57313]%N (lit "WARNING"))
              (filter (fun i => jsstr_eqb (severity i) (lit "warning")) issues)
         ++ flat_map (spec_entry numeral [55357; 56481]%N (lit "SUGGESTION"))
              (filter (fun i => jsstr_eqb (severity i) (lit "suggestion"))
                 issues).
Proof.
  intros Hne. exists Z_toString. split; [exact Z_toString_safe|].
  exact (formatValeResults_text issues summary context Hne).
Qed.

(** C3 on a warning, an error and a second warning: the entry of the
    error comes first, then those of the two warnings as they came, and
    the clause names one error and two warnings. *)
Lemma formatValeResults_groups_witness :
  exists numeral : Z -> jsstr,
    rendersSafeIntegers numeral
    /\ formatValeResults mixedIssues (generateSummary mixedIssues) None
       = (lit "## Vale Linting Results" ++ nl ++ nl
            ++ lit "**Summary:** " ++ numeral 3%Z
            ++ lit " issues found (" ++ numeral 1%Z ++ lit " error, "
            ++ numeral 2%Z ++ lit " warnings)" ++ nl ++ nl
            ++ lit "### Issues" ++ nl ++ nl)
         ++ spec_entry numeral [55357; 56628]%N (lit "ERROR")
              (sampleIssue (lit "error") 3)
         ++ spec_entry numeral [55357; 57313]%N (lit "WARNING")
              (sampleIssue (lit "warning") 7)
         ++ spec_entry numeral [55357; 57313]%N (lit "WARNING")
              (sampleIssue (lit "warning") 9).
Proof.
  destruct (formatValeResults_groups mixedIssues (generateSummary mixedIssues)
              None) as (numeral & Hn & E); [discriminate|].
  exists numeral. split; [exact Hn|].
  rewrite E.
  change (generateSummary mixedIssues)
    with {| total := 3; errors := 1; warnings := 2; suggestions := 0 |}.
  change (filter (fun i => jsstr_eqb (severity i) (lit "error")) mixedIssues)
    with [sampleIssue (lit "error") 3].
  change (filter (fun i => jsstr_eqb (severity i) (lit "warning")) mixedIssues)
    with [sampleIssue (lit "warning") 7; sampleIssue (lit "warning") 9].
  change (filter (fun i => jsstr_eqb (severity i) (lit "suggestion"))
            mixedIssues)
    with (@nil NormalizedValeIssue).
  unfold spec_head, spec_clause, spec_count.
  cbn [total errors warnings suggestions filter fst snd map join Nat.eqb negb
       flat_map Z.of_nat Pos.of_succ_nat Pos.succ].
  rewrite ?app_nil_r, <- !app_assoc. reflexivity.
Defined.

(** ** Code fences *)

Lemma stripPrefix_app (p s r : jsstr) :
  stripPrefix p s = Some r <-> s = p ++ r.
Proof.
  revert s. induction p as [|x p IH]; intros s; cbn.
  - split; congruence.
  - destruct s as [|y s]; [split; discriminate|].
    destruct (N.eqb x y) eqn:E.
    + apply N.eqb_eq in E. subst y. rewrite IH. split; congruence.
    + apply N.eqb_neq in E. split; [discriminate | congruence].
Qed.

Lemma startsWith_app (p a b : jsstr) :
  startsWith p a = true -> startsWith p (a ++ b) = true.
Proof.
  unfold startsWith. destruct (stripPrefix p a) as [r|] eqn:E; [|discriminate].
  apply stripPrefix_app in E. subst a. intros _.
  rewrite <- app_assoc.
  destruct (stripPrefix p (p ++ r ++ b)) as [r'|] eqn:E'; [reflexivity|].
  assert (H : stripPrefix p (p ++ r ++ b) = Some (r ++ b))
    by now apply stripPrefix_app.
  congruence.
Qed.

Lemma dropSpaces_spaces (a : jsstr) :
  forallb isSpace a = true <-> dropSpaces a = [].
Proof.
  induction a as [|c a IH]; cbn; [tauto|].
  destruct (isSpace c); cbn; [exact IH | split; discriminate].
Qed.

Lemma dropSpaces_app_spaces (a b : jsstr) :
  forallb isSpace a = true -> dropSpaces (a ++ b) = dropSpaces b.
Proof.
  induction a as [|c a IH]; cbn; [reflexivity|].
  destruct (isSpace c); cbn; [exact IH | discriminate].
Qed.

Lemma dropSpaces_app_rest (a b : jsstr) :
  dropSpaces a <> [] -> dropSpaces (a ++ b) = dropSpaces a ++ b.
Proof.
  induction a as [|c a IH]; cbn; [congruence|].
  destruct (isSpace c); [exact IH | reflexivity].
Qed.

Lemma dropSpaces_idem (a : jsstr) : dropSpaces (dropSpaces a) = dropSpaces a.
Proof.
  induction a as [|c a IH]; cbn; [reflexivity|].
  destruct (isSpace c) eqn:E; [exact IH | cbn; now rewrite E].
Qed.

Lemma trim_spaces (t : jsstr) : forallb isSpace t = true -> trim t = [].
Proof.
  intros H. unfold trim, trimStart, trimEnd.
  apply dropSpaces_spaces in H. now rewrite H.
Qed.

Lemma trim_trimStart (t : jsstr) : trim (dropSpaces t) = trim t.
Proof. unfold trim, trimStart. now rewrite dropSpaces_idem. Qed.

Lemma forallb_rev {A} (f : A -> bool) (l : list A) :
  forallb f (rev l) = forallb f l.
Proof.
  induction l as [|x l IH]; cbn; [reflexivity|].
  rewrite forallb_app, IH. cbn. rewrite andb_true_r. apply andb_comm.
Qed.

(** A text matched by the closing pattern from its first character on:
    three back-ticks, then white space only. *)
Lemma fenceToEnd_shape (s : jsstr) :
  fenceToEnd s = true <->
  exists ws, s = lit "```" ++ ws /\ forallb isSpace ws = true.
Proof.
  unfold fenceToEnd. destruct (stripPrefix (lit "```") s) as [r|] eqn:E.
  - apply stripPrefix_app in E. split.
    + intros H. now exists r.
    + intros (ws & Hs & Hws). subst s. apply app_inv_head in Hs. now subst.
  - split; [discriminate|]. intros (ws & Hs & _).
    apply stripPrefix_app in Hs. congruence.
Qed.

(** No match can start before the line feed of a final closing line. *)
Lemma fenceToEnd_before_closing (y : jsstr) :
  fenceToEnd (y ++ nl ++ lit "```") = false.
Proof.
  destruct (fenceToEnd (y ++ nl ++ lit "```")) eqn:E; [|reflexivity].
  exfalso. apply fenceToEnd_shape in E. destruct E as (ws & Hs & Hws).
  apply (f_equal (@rev N)) in Hs. rewrite !rev_app_distr in Hs. cbn in Hs.
  rewrite <- forallb_rev in Hws.
  destruct (rev ws) as [|a q].
  - cbn in Hs. destruct (rev y); discriminate.
  - cbn in Hs. injection Hs as Ha _. subst a. cbn in Hws. discriminate.
Qed.

Lemma closingFenceAt_before_closing (c : N) (u : jsstr) :
  closingFenceAt (c :: u ++ nl ++ lit "```") = false.
Proof.
  unfold closingFenceAt.
  change (c :: u ++ nl ++ lit "```") with ((c :: u) ++ nl ++ lit "```").
  rewrite !fenceToEnd_before_closing. now destruct (c =? 10)%N.
Qed.

(** The second replacement removes a final closing line, whatever stands
    before it. *)
Lemma replaceClosingFence_closing (u : jsstr) :
  replaceClosingFence (u ++ nl ++ lit "```") = u.
Proof.
  induction u as [|c u IH]; [reflexivity|].
  cbn [app replaceClosingFence]. rewrite closingFenceAt_before_closing.
  now rewrite IH.
Qed.

(** Exactly one wrapper goes: the text that reaches the parser for a
    fenced text is that text, trimmed. *)
Lemma stripCodeFence_fenced (t : jsstr) : stripCodeFence (fenced t) = trim t.
Proof.
  unfold stripCodeFence, fenced, replaceOpeningFence.
  assert (E : stripPrefix (lit "```json") (lit "```json" ++ nl ++ t ++ nl ++ lit "```")
              = Some (nl ++ t ++ nl ++ lit "```"))
    by now apply stripPrefix_app.
  rewrite E. clear E.
  change (dropSpaces (nl ++ t ++ nl ++ lit "```"))
    with (dropSpaces (t ++ nl ++ lit "```")).
  destruct (forallb isSpace t) eqn:Hsp.
  - rewrite dropSpaces_app_spaces by assumption.
    rewrite (trim_spaces t) by assumption. reflexivity.
  - assert (Hne : dropSpaces t <> []).
    { intros H. apply dropSpaces_spaces in H. congruence. }
    rewrite dropSpaces_app_rest by assumption.
    rewrite replaceClosingFence_closing. apply trim_trimStart.
Qed.

Lemma replaceOpeningFence_unfenced (t : jsstr) :
  startsWith (lit "```json") t = false -> replaceOpeningFence t = t.
Proof.
  unfold startsWith, replaceOpeningFence.
  now destruct (stripPrefix (lit "```json") t).
Qed.

Lemma endsWith_trimEnd (p t : jsstr) :
  endsWith p (trimEnd t) = startsWith (rev p) (dropSpaces (rev t)).
Proof. unfold endsWith, trimEnd. now rewrite rev_involutive. Qed.

Lemma fenceToEnd_ends (s : jsstr) :
  fenceToEnd s = true ->
  startsWith (lit "```") (dropSpaces (rev s)) = true.
Proof.
  intros H. apply fenceToEnd_shape in H. destruct H as (ws & -> & Hws).
  rewrite rev_app_distr, dropSpaces_app_spaces by now rewrite forallb_rev.
  reflexivity.
Qed.

Lemma ends_cons (c : N) (r : jsstr) :
  startsWith (lit "```") (dropSpaces (rev r)) = true ->
  startsWith (lit "```") (dropSpaces (rev (c :: r))) = true.
Proof.
  intros H. cbn [rev]. rewrite dropSpaces_app_rest.
  - now apply startsWith_app.
  - intros E. rewrite E in H. discriminate.
Qed.

Lemma closingFenceAt_ends (s : jsstr) :
  closingFenceAt s = true ->
  startsWith (lit "```") (dropSpaces (rev s)) = true.
Proof.
  destruct s as [|c r]; cbn [closingFenceAt]; [apply fenceToEnd_ends|].
  destruct (c =? 10)%N; [|apply fenceToEnd_ends].
  intros H. apply orb_true_iff in H. destruct H as [H|H].
  - apply ends_cons. now apply fenceToEnd_ends.
  - now apply fenceToEnd_ends.
Qed.

(** The second replacement leaves alone a text that does not end, white
    space apart, with three back-ticks. *)
Lemma replaceClosingFence_unfenced (t : jsstr) :
  endsWith (lit "```") (trimEnd t) = false -> replaceClosingFence t = t.
Proof.
  rewrite endsWith_trimEnd. change (rev (lit "```")) with (lit "```").
  induction t as [|c r IH]; intros H; [reflexivity|].
  cbn [replaceClosingFence].
  destruct (closingFenceAt (c :: r)) eqn:E.
  - apply closingFenceAt_ends in E. congruence.
  - f_equal. apply IH.
    destruct (startsWith (lit "```") (dropSpaces (rev r))) eqn:E'; [|reflexivity].
    apply (ends_cons c) in E'. congruence.
Qed.

Lemma stripCodeFence_unfenced (t : jsstr) :
  startsWith (lit "```json") t = false ->
  endsWith (lit "```") (trimEnd t) = false ->
  stripCodeFence t = trim t.
Proof.
  intros H1 H2. unfold stripCodeFence.
  now rewrite replaceOpeningFence_unfenced, replaceClosingFence_unfenced.
Qed.

Lemma spaces_unfenced (t : jsstr) :
  forallb isSpace t = true ->
  startsWith (lit "```json") t = false
  /\ endsWith (lit "```") (trimEnd t) = false.
Proof.
  intros H. split.
  - destruct t as [|c r]; [reflexivity|].
    cbn in H. apply andb_true_iff in H. destruct H as [Hc _].
    unfold startsWith.
    change (lit "```json") with (96%N :: lit "``json"). cbn [stripPrefix].
    destruct (N.eqb 96 c) eqn:E; [|reflexivity].
    apply N.eqb_eq in E. subst c. discriminate.
  - rewrite endsWith_trimEnd.
    rewrite <- forallb_rev in H. apply dropSpaces_spaces in H.
    now rewrite H.
Qed.

Lemma stripCodeFence_spaces (t : jsstr) :
  forallb isSpace t = true -> stripCodeFence t = [].
Proof.
  intros H. destruct (spaces_unfenced t H) as [H1 H2].
  rewrite stripCodeFence_unfenced by assumption. now apply trim_spaces.
Qed.

(** The result of [parseValeOutput] is a function of the stripped text. *)
Lemma parseValeOutput_stripped (h : Host) (a b : jsstr) :
  stripCodeFence a = stripCodeFence b ->
  parseValeOutput h a = parseValeOutput h b.
Proof. unfold parseValeOutput. now intros ->. Qed.

(** C5 (as amended).  For every raw text, the text handed to the
    structural parser for the fenced text is the trimmed raw text: exactly
    one wrapper is stripped, along with leading and trailing white space.
    Hence, for every raw text that does not itself begin with [```json]
    and does not end, trailing white space apart, with three back-ticks,
    parsing the fenced text yields the same normalised issue list as
    parsing the text itself. *)
Theorem parse_fenced (h : Host) (t : jsstr) :
  stripCodeFence (fenced t) = trim t
  /\ (startsWith (lit "```json") t = false ->
      endsWith (lit "```") (trimEnd t) = false ->
      parseValeOutput h (fenced t) = parseValeOutput h t
      /\ parseIssues h (fenced t) = parseIssues h t).
Proof.
  split; [apply stripCodeFence_fenced|].
  intros H1 H2.
  assert (E : parseValeOutput h (fenced t) = parseValeOutput h t).
  { apply parseValeOutput_stripped.
    now rewrite stripCodeFence_fenced, stripCodeFence_unfenced. }
  split; [exact E|]. unfold parseIssues. now rewrite E.
Qed.

(** C5 at the empty document: in a fence or not, it parses to no issue. *)
Lemma parse_fenced_witness :
  parseIssues silentHost (lit "{}") = Returned []
  /\ parseValeOutput silentHost (fenced (lit "{}"))
     = parseValeOutput silentHost (lit "{}")
  /\ parseIssues silentHost (fenced (lit "{}"))
     = parseIssues silentHost (lit "{}").
Proof.
  split; [reflexivity|].
  apply (proj2 (parse_fenced silentHost (lit "{}"))); reflexivity.
Defined.

(** C5, as it was stated, fails on a raw text that is itself fenced: the
    fenced empty document parses to no issue, but put in a second fence
    it loses only the outer one, and what is left is not a JSON text. *)
Lemma parse_fenced_twice :
  parseIssues silentHost fencedEmptyObject = Returned []
  /\ stripCodeFence (fenced fencedEmptyObject) = fencedEmptyObject
  /\ MalformedToolOutput (parseIssues silentHost (fenced fencedEmptyObject)).
Proof.
  split; [reflexivity|]. split; [reflexivity|].
  exists (lit "Unexpected token in JSON"). reflexivity.
Qed.

(** A fence around white space only, the closing marker on the line after
    the opening one or on the same line, strips to nothing. *)
Lemma stripCodeFence_touching (t : jsstr) :
  forallb isSpace t = true ->
  stripCodeFence (lit "```json" ++ t ++ lit "```") = [].
Proof.
  intros H. unfold stripCodeFence, replaceOpeningFence.
  assert (E : stripPrefix (lit "```json") (lit "```json" ++ t ++ lit "```")
              = Some (t ++ lit "```"))
    by now apply stripPrefix_app.
  rewrite E, dropSpaces_app_spaces by assumption. reflexivity.
Qed.

(** C6.  A raw text that is empty or all white space, bare or inside a
    code fence (the fence of [fenced], or one whose markers hold nothing
    but that white space between them), parses to the empty issue set and
    [JSON.parse] is not consulted; and when the stripped text is not empty and [JSON.parse]
    rejects it, [parseValeOutput] throws the [MalformedToolOutput] error
    that carries the parser's message, and returns nothing. *)
Theorem parseValeOutput_blank_or_malformed (h : Host) (t : jsstr) :
  (forallb isSpace t = true ->
   parseValeOutput h t = Returned []
   /\ parseValeOutput h (fenced t) = Returned []
   /\ parseValeOutput h (lit "```json" ++ t ++ lit "```") = Returned []
   /\ parseIssues h t = Returned []
   /\ parseIssues h (fenced t) = Returned []
   /\ parseIssues h (lit "```json" ++ t ++ lit "```") = Returned [])
  /\ (forall msg,
        stripCodeFence t <> [] ->
        JSON_parse h (stripCodeFence t) = inl msg ->
        parseValeOutput h t
          = Thrown (lit "Failed to parse Vale JSON output: " ++ msg)
        /\ MalformedToolOutput (parseValeOutput h t)
        /\ MalformedToolOutput (parseIssues h t)).
Proof.
  split.
  - intros H.
    assert (E1 : parseValeOutput h t = Returned []).
    { unfold parseValeOutput. now rewrite stripCodeFence_spaces. }
    assert (E2 : parseValeOutput h (fenced t) = Returned []).
    { unfold parseValeOutput.
      now rewrite stripCodeFence_fenced, trim_spaces. }
    assert (E3 : parseValeOutput h (lit "```json" ++ t ++ lit "```")
                 = Returned []).
    { unfold parseValeOutput. now rewrite stripCodeFence_touching. }
    unfold parseIssues. rewrite E1, E2, E3. repeat split.
  - intros msg Hne Hparse.
    assert (E : parseValeOutput h t
                = Thrown (lit "Failed to parse Vale JSON output: " ++ msg)).
    { unfold parseValeOutput.
      destruct (stripCodeFence t) as [|c r] eqn:Es; [congruence|].
      now rewrite Hparse. }
    split; [exact E|]. unfold parseIssues. rewrite E.
    split; now exists msg.
Qed.

(** C6 on a line feed and on a truncated document. *)
Lemma parseValeOutput_blank_or_malformed_witness :
  (parseValeOutput silentHost nl = Returned []
   /\ parseValeOutput silentHost (fenced nl) = Returned []
   /\ parseValeOutput silentHost (lit "```json" ++ nl ++ lit "```") = Returned []
   /\ parseIssues silentHost nl = Returned []
   /\ parseIssues silentHost (fenced nl) = Returned []
   /\ parseIssues silentHost (lit "```json" ++ nl ++ lit "```") = Returned [])
  /\ (parseValeOutput silentHost (lit "{")
        = Thrown (lit "Failed to parse Vale JSON output: "
                    ++ lit "Unexpected token in JSON")
      /\ MalformedToolOutput (parseValeOutput silentHost (lit "{"))
      /\ MalformedToolOutput (parseIssues silentHost (lit "{"))).
Proof.
  split.
  - apply (proj1 (parseValeOutput_blank_or_malformed silentHost nl)).
    reflexivity.
  - apply (proj2 (parseValeOutput_blank_or_malformed silentHost (lit "{"))
             (lit "Unexpected token in JSON")).
    + discriminate.
    + reflexivity.
Defined.

(** ** The installation cache *)

Lemma checkValeInstalled_hit (h : Host) (p : Process) :
  checked (valeInstallCache p) = true ->
  checkValeInstalled h p = (Returned (statusOfCache (valeInstallCache p)), p).
Proof.
  intros H. unfold checkValeInstalled, bind, get_cache, ret. now rewrite H.
Qed.

Lemma checkValeInstalled_miss (h : Host) (p : Process) :
  checked (valeInstallCache p) = false ->
  checkValeInstalled h p
  = (Returned (statusOfCache (valeInstallCache (probedProcess h p))),
     probedProcess h p).
Proof.
  intros H. unfold checkValeInstalled, bind, get_cache, ret, execAsync.
  rewrite H. unfold probedProcess, probedCache, versionQuery.
  now destruct (exec h (List.length (execLog p)) (lit "vale --version", None)).
Qed.

Lemma probedCache_checked (out : ExecOutcome) : checked (probedCache out) = true.
Proof. now destruct out. Qed.

Lemma checkValeInstalled_checks (h : Host) (p : Process) :
  checked (valeInstallCache (snd (checkValeInstalled h p))) = true.
Proof.
  destruct (checked (valeInstallCache p)) eqn:H.
  - now rewrite checkValeInstalled_hit.
  - rewrite checkValeInstalled_miss by assumption. apply probedCache_checked.
Qed.

(** A probe returns the status of the cache it leaves behind. *)
Lemma checkValeInstalled_returns_cache (h : Host) (p : Process) :
  fst (checkValeInstalled h p)
  = Returned (statusOfCache (valeInstallCache (snd (checkValeInstalled h p)))).
Proof.
  destruct (checked (valeInstallCache p)) eqn:H.
  - now rewrite checkValeInstalled_hit.
  - now rewrite checkValeInstalled_miss.
Qed.

Lemma probes_hit (h : Host) (n : nat) (p : Process) :
  checked (valeInstallCache p) = true ->
  probes h n p = (repeat (Returned (statusOfCache (valeInstallCache p))) n, p).
Proof.
  intros H. induction n as [|n IH]; [reflexivity|].
  cbn [probes repeat]. rewrite checkValeInstalled_hit by assumption.
  now rewrite IH.
Qed.

(** C9.  Once a first probe has completed, the cache is marked checked;
    every later probe, however many follow, returns the status the first
    one returned and leaves the process as it is, so the version query is
    not run again; after [clearValeInstallCache] the cache is unchecked
    and the next probe runs the query once more and returns what that run
    gives. *)
Theorem checkValeInstalled_cached (h : Host) (p : Process) :
  let first := checkValeInstalled h p in
  let p1 := snd first in
  checked (valeInstallCache p1) = true
  /\ (forall n, probes h n p1 = (repeat (fst first) n, p1))
  /\ (let p2 := snd (clearValeInstallCache p1) in
      checked (valeInstallCache p2) = false
      /\ execLog p2 = execLog p1
      /\ checkValeInstalled h p2
         = (Returned
              (statusOfCache
                 (probedCache (exec h (List.length (execLog p1)) versionQuery))),
            probedProcess h p2)
      /\ execLog (probedProcess h p2) = execLog p1 ++ [versionQuery]).
Proof.
  cbn zeta. split; [apply checkValeInstalled_checks|].
  split.
  - intros n. rewrite checkValeInstalled_returns_cache.
    apply probes_hit, checkValeInstalled_checks.
  - repeat split. now rewrite checkValeInstalled_miss.
Qed.

(** ** Running the tool on a file *)

(** [checkFile] on a readable file: one call of the tool, and what is made
    of each outcome. *)
Lemma checkFile_run (h : Host) (filePath : jsstr) (configPath : option jsstr)
  (p : Process) :
  readable h filePath = true ->
  fst (checkFile h filePath configPath p)
  = match exec h (List.length (execLog p)) (checkCall h filePath configPath) with
    | Resolved stdout _ => analyseOutput h (absolutePathOf h filePath) stdout
    | Rejected e =>
        if truthy (err_stdout e)
        then analyseOutput h (absolutePathOf h filePath)
               (interpolate (err_stdout e))
        else Thrown (lit "Vale execution failed: " ++ executionDiagnostic e)
    end
  /\ execLog (snd (checkFile h filePath configPath p))
     = execLog p ++ [checkCall h filePath configPath].
Proof.
  intros Hr. unfold checkFile, checkCall, analyseOutput, executionDiagnostic.
  fold (absolutePathOf h filePath).
  unfold bind, ret, throw, lift, execAsync, console_error.
  rewrite Hr.
  destruct (truthy configPath); cbn -[lit app absolutePathOf];
    rewrite <- ?app_assoc; cbn [app]; unfold jsstr, ExecCall;
    match goal with
    | |- context [exec h ?n ?c] => destruct (exec h n c) as [out err|e]
    end;
    try (destruct (truthy (err_stdout e)));
    cbn -[lit app absolutePathOf];
    try (destruct (parseValeOutput h _));
    split; reflexivity.
Qed.

(** What [checkFile] makes of a raw output is a result or a
    [MalformedToolOutput] error, never [ToolExecutionFailed]. *)
Lemma analyseOutput_not_execution_failure (h : Host) (absolutePath stdout : jsstr) :
  ~ ToolExecutionFailed (analyseOutput h absolutePath stdout).
Proof.
  unfold analyseOutput, parseValeOutput. intros (d & H).
  destruct (stripCodeFence stdout); [discriminate|].
  destruct (JSON_parse h _); discriminate.
Qed.

(** C1 (as amended).  For [checkFile] on a readable file, the operation
    fails with [ToolExecutionFailed] exactly when the external process
    ended in an error and produced no standard output; the error then
    carries the captured standard error, else the message of the
    failure.  A process that ended in an error but produced standard
    output has that output taken as the raw output and the check
    proceeds; so has a process that ended normally, whatever it
    printed. *)
Theorem checkFile_execution_failure (h : Host) (filePath : jsstr)
  (configPath : option jsstr) (p : Process) :
  readable h filePath = true ->
  let outcome :=
    exec h (List.length (execLog p)) (checkCall h filePath configPath) in
  let result := fst (checkFile h filePath configPath p) in
  (ToolExecutionFailed result <->
   exists e, outcome = Rejected e /\ truthy (err_stdout e) = false)
  /\ (forall e, outcome = Rejected e -> truthy (err_stdout e) = false ->
      result = Thrown (lit "Vale execution failed: " ++ executionDiagnostic e))
  /\ (forall e, outcome = Rejected e -> truthy (err_stdout e) = true ->
      result = analyseOutput h (absolutePathOf h filePath)
                 (interpolate (err_stdout e)))
  /\ (forall stdout stderr, outcome = Resolved stdout stderr ->
      result = analyseOutput h (absolutePathOf h filePath) stdout).
Proof.
  intros Hr outcome result.
  destruct (checkFile_run h filePath configPath p Hr) as [Hrun _].
  fold outcome result in Hrun.
  assert (Hfail : forall e, outcome = Rejected e -> truthy (err_stdout e) = false ->
            result = Thrown (lit "Vale execution failed: " ++ executionDiagnostic e)).
  { intros e He Ht. now rewrite Hrun, He, Ht. }
  assert (Hout : forall e, outcome = Rejected e -> truthy (err_stdout e) = true ->
            result = analyseOutput h (absolutePathOf h filePath)
                       (interpolate (err_stdout e))).
  { intros e He Ht. now rewrite Hrun, He, Ht. }
  assert (Hok : forall stdout stderr, outcome = Resolved stdout stderr ->
            result = analyseOutput h (absolutePathOf h filePath) stdout).
  { intros out err He. now rewrite Hrun, He. }
  repeat split; try assumption.
  - intros Hf. destruct outcome as [out err|e] eqn:Eo.
    + rewrite (Hok out err eq_refl) in Hf.
      now apply analyseOutput_not_execution_failure in Hf.
    + exists e. split; [reflexivity|].
      destruct (truthy (err_stdout e)) eqn:Et; [|reflexivity].
      rewrite (Hout e eq_refl Et) in Hf.
      now apply analyseOutput_not_execution_failure in Hf.
  - intros (e & He & Ht). rewrite (Hfail e He Ht).
    now exists (executionDiagnostic e).
Qed.

(** C1 where the tool cannot be run: the check fails with what the shell
    wrote to standard error. *)
Lemma checkFile_execution_failure_witness :
  ToolExecutionFailed (fst (checkFile brokenHost sampleFile None initialProcess))
  /\ fst (checkFile brokenHost sampleFile None initialProcess)
     = Thrown (lit "Vale execution failed: "
                 ++ lit "/bin/sh: 1: vale: not found").
Proof.
  split.
  - apply (proj1 (checkFile_execution_failure brokenHost sampleFile None
                    initialProcess eq_refl)).
    exists commandNotFound. split; reflexivity.
  - reflexivity.
Defined.

(** C1, as it was stated, fails: a tool that exits with status zero and
    prints nothing produced no standard output, and the check does not
    fail; it reports that there is no issue. *)
Lemma checkFile_silent_success :
  exec silentHost 0 (checkCall silentHost sampleFile None) = Resolved [] []
  /\ fst (checkFile silentHost sampleFile None initialProcess)
     = Returned cleanResult.
Proof. split; reflexivity. Qed.

(** ** The request handler *)

Lemma callTool_check_file (h : Host) (args : option ToolArguments) (p : Process) :
  callTool h (checkFileRequest args) p
  = try_catch (check_file_case h args) (dispatchFailure h) p.
Proof. reflexivity. Qed.

Lemma callTool_vale_status (h : Host) (args : option ToolArguments) (p : Process) :
  callTool h (statusRequest args) p
  = try_catch (vale_status_case h) (dispatchFailure h) p.
Proof. reflexivity. Qed.

Lemma callTool_vale_sync (h : Host) (args : option ToolArguments) (p : Process) :
  callTool h (syncRequest args) p
  = try_catch (vale_sync_case h args) (dispatchFailure h) p.
Proof. reflexivity. Qed.

(** The [catch] clause answers without touching the process. *)
Lemma dispatchFailure_pure (h : Host) (msg : jsstr) (p : Process) :
  snd (dispatchFailure h msg p) = p
  /\ exists response, fst (dispatchFailure h msg p) = Returned response.
Proof.
  unfold dispatchFailure, ret.
  destruct (isStylesDirectoryError msg); split; try reflexivity; eexists;
    reflexivity.
Qed.

(** The guard of [check_file]: a request whose arguments object holds no
    [path], or the empty string, is answered with the
    parameter-validation error, and the process is left as it was: no
    probe, no external command, no change of the cache. *)
Theorem check_file_requires_path (h : Host) (args : ToolArguments) (p : Process) :
  truthy (path args) = false ->
  callTool h (checkFileRequest (Some args)) p = (Returned missingPathResponse, p)
  /\ execLog (snd (callTool h (checkFileRequest (Some args)) p)) = execLog p
  /\ text missingPathResponse
     = lit "{" ++ dquote ++ lit "error" ++ dquote ++ lit ":" ++ dquote
         ++ lit "Missing required parameter: path" ++ dquote ++ lit "}"
  /\ structured_data missingPathResponse = None.
Proof.
  intros H.
  assert (E : callTool h (checkFileRequest (Some args)) p
              = (Returned missingPathResponse, p)).
  { rewrite callTool_check_file. unfold try_catch, check_file_case.
    rewrite H. reflexivity. }
  rewrite E. repeat split.
Qed.

(** The guard on a request without [path] and on one whose [path] is the
    empty string, on a host that has run nothing yet. *)
Lemma check_file_requires_path_witness :
  (callTool brokenHost (checkFileRequest (Some noArguments)) initialProcess
     = (Returned missingPathResponse, initialProcess)
   /\ callTool brokenHost (checkFileRequest (Some emptyPathArguments)) initialProcess
     = (Returned missingPathResponse, initialProcess))
  /\ execLog (snd (callTool brokenHost (checkFileRequest (Some emptyPathArguments))
                     initialProcess)) = [].
Proof.
  split.
  - split.
    + apply (check_file_requires_path brokenHost noArguments initialProcess).
      reflexivity.
    + apply (check_file_requires_path brokenHost emptyPathArguments initialProcess).
      reflexivity.
  - apply (check_file_requires_path brokenHost emptyPathArguments initialProcess).
    reflexivity.
Defined.

(** A [check_file] request that carries no arguments object at all fails
    in the destructuring; the [catch] clause answers, and no external
    command is run either. *)
Lemma check_file_without_arguments (h : Host) (p : Process) :
  callTool h (checkFileRequest None) p
  = dispatchFailure h (destructure_message h (lit "path")) p
  /\ snd (callTool h (checkFileRequest None) p) = p.
Proof.
  rewrite callTool_check_file. unfold try_catch, check_file_case, throw.
  split; [reflexivity|]. apply dispatchFailure_pure.
Qed.

(** C7.  A [check_file] request that carries no arguments object has no
    [path] either, but it never reaches the guard: the destructuring of
    [args] throws, and the [catch] clause answers with its generic error
    payload, the message of the [TypeError] and the stack, which is not
    the parameter-validation response that a request with an arguments
    object and no [path] gets on the same host.  No external command is
    run in either case, and the process is left as it was. *)
Theorem check_file_arguments_missing :
  let thrown :=
    lit "Cannot destructure property 'path' of 'args' as it is undefined." in
  callTool brokenHost (checkFileRequest None) initialProcess
    = (Returned (textResponse (genericErrorText brokenHost thrown)),
       initialProcess)
  /\ genericErrorText brokenHost thrown <> text missingPathResponse
  /\ callTool brokenHost (checkFileRequest (Some noArguments)) initialProcess
     = (Returned missingPathResponse, initialProcess)
  /\ execLog (snd (callTool brokenHost (checkFileRequest None) initialProcess))
     = [].
Proof.
  intros thrown.
  assert (E : callTool brokenHost (checkFileRequest None) initialProcess
              = (Returned (textResponse (genericErrorText brokenHost thrown)),
                 initialProcess)).
  { rewrite callTool_check_file. unfold try_catch, check_file_case, throw.
    unfold dispatchFailure, genericErrorText.
    change (destructure_message brokenHost (lit "path")) with thrown.
    assert (F : isStylesDirectoryError thrown = false)
      by (vm_compute; reflexivity).
    now rewrite F. }
  split; [exact E|]. split; [|split].
  - intros F. apply (f_equal (fun t => nth 10 t 0%N)) in F.
    vm_compute in F. discriminate F.
  - rewrite callTool_check_file. unfold try_catch, check_file_case.
    reflexivity.
  - now rewrite E.
Qed.

(** ** The status response *)








(** ** Configuration resolution *)

(** The steps of a sequence of statements, one at a time. *)
Lemma bind_console_error {A} (msg : jsstr) (k : unit -> M A) (p : Process) :
  bind (console_error msg) k p = k tt (appendLog p [msg]).
Proof. reflexivity. Qed.

Lemma snd_console_error (msg : jsstr) (p : Process) :
  snd (console_error msg p) = appendLog p [msg].
Proof. reflexivity. Qed.

Lemma bind_ret {A B} (a : A) (k : A -> M B) (p : Process) :
  bind (ret a) k p = k a p.
Proof. reflexivity. Qed.

Lemma bind_set_valeConfigPath {A} (c : option jsstr) (k : unit -> M A)
  (p : Process) :
  bind (set_valeConfigPath c) k p = k tt (withConfig p c).
Proof. reflexivity. Qed.

Lemma bind_assoc {A B C} (m : M A) (f : A -> M B) (g : B -> M C) (p : Process) :
  bind (bind m f) g p = bind m (fun a => bind (f a) g) p.
Proof. unfold bind. now destruct (m p) as [[a|msg] p']. Qed.

Lemma appendLog_nil (p : Process) : appendLog p [] = p.
Proof. destruct p. unfold appendLog. cbn. now rewrite app_nil_r. Qed.

Lemma appendLog_appendLog (p : Process) (l1 l2 : list jsstr) :
  appendLog (appendLog p l1) l2 = appendLog p (l1 ++ l2).
Proof. unfold appendLog. cbn. now rewrite app_assoc. Qed.

Lemma logMethod_logs (m : InstallMethod) :
  exists lines, forall p, logMethod m p = (Returned tt, appendLog p lines).
Proof.
  unfold logMethod. destruct (truthy (method_url m)).
  - eexists. intros p. rewrite bind_console_error.
    unfold console_error.
    cbn [appendLog valeInstallCache valeConfigPath execLog stderrLog].
    rewrite <- app_assoc. reflexivity.
  - eexists. intros p. rewrite bind_console_error. reflexivity.
Qed.

(** Listing the installation methods only writes to the error stream. *)
Lemma forEach_logMethod_logs (methods : list InstallMethod) :
  exists lines,
    forall p, forEach logMethod methods p = (Returned tt, appendLog p lines).
Proof.
  induction methods as [|m methods (l2 & IH)].
  - exists []. intros p. now rewrite appendLog_nil.
  - destruct (logMethod_logs m) as (l1 & E1).
    exists (l1 ++ l2). intros p. cbn [forEach]. unfold bind.
    now rewrite E1, IH, appendLog_appendLog.
Qed.

(** The process after start-up on a host without the tool: the probe, and
    lines on the error stream. *)
Lemma startup_not_installed_process (h : Host) (e : ExecError) :
  exec h 0 versionQuery = Rejected e ->
  exists lines, startup h = appendLog (probedProcess h initialProcess) lines.
Proof.
  intros H.
  destruct (forEach_logMethod_logs (instr_methods (getInstallationInstructions h)))
    as (lines & E).
  eexists. unfold startup, initializeValeConfig. unfold bind at 1.
  rewrite checkValeInstalled_miss by reflexivity.
  unfold probedProcess at 1. cbn [execLog initialProcess List.length valeInstallCache].
  rewrite H.
  change (negb (status_installed (statusOfCache (probedCache (Rejected e)))))
    with true.
  cbv iota. rewrite !bind_console_error.
  unfold bind at 1. rewrite E. rewrite !bind_console_error.
  rewrite snd_console_error, !appendLog_appendLog.
  reflexivity.
Qed.

(** No configuration has been looked for. *)
Lemma startup_not_installed (h : Host) (e : ExecError) :
  exec h 0 versionQuery = Rejected e ->
  valeConfigPath (startup h) = None
  /\ valeInstallCache (startup h) = probedCache (Rejected e)
  /\ execLog (startup h) = [versionQuery].
Proof.
  intros H. destruct (startup_not_installed_process h e H) as (lines & ->).
  unfold appendLog, probedProcess.
  cbn [valeInstallCache valeConfigPath execLog initialProcess List.length app].
  rewrite H. repeat split.
Qed.

Lemma withConfig_appendLog (p : Process) (lines : list jsstr) (c : option jsstr) :
  withConfig (appendLog p lines) c = appendLog (withConfig p c) lines.
Proof. reflexivity. Qed.

Lemma snd_ret {A} (a : A) (p : Process) : snd (ret a p) = p.
Proof. reflexivity. Qed.

(** Run a sequence of statements that log and set the configuration. *)
Ltac run_statements :=
  repeat (rewrite ?bind_assoc, ?bind_console_error, ?bind_set_valeConfigPath,
            ?bind_ret; cbv beta iota);
  rewrite ?snd_console_error, ?snd_ret;
  rewrite ?withConfig_appendLog, ?appendLog_appendLog.

(** The process after start-up on a host with the tool: the probe, the
    process-wide configuration of the priority order, and lines on the
    error stream, among them the warning about an unusable override.
    [path.join] never returns the empty string; that is all the lemma
    asks of it. *)
Lemma startup_installed_process (h : Host) (stdout stderr : jsstr) :
  exec h 0 versionQuery = Resolved stdout stderr ->
  path_join h [cwd h; lit ".vale.ini"] <> [] ->
  exists lines,
    startup h
    = appendLog (withConfig (probedProcess h initialProcess)
                   (spec_processWideConfig h)) lines
    /\ (forall override,
          env_VALE_CONFIG_PATH h = Some override -> override <> [] ->
          readable h (resolveConfigPath h override) = false ->
          In (overrideWarning override) lines).
Proof.
  intros H Hjoin. unfold startup, initializeValeConfig. unfold bind at 1.
  rewrite checkValeInstalled_miss by reflexivity.
  unfold probedProcess at 1. cbn [execLog initialProcess List.length valeInstallCache].
  rewrite H.
  change (negb (status_installed (statusOfCache (probedCache (Resolved stdout stderr)))))
    with false.
  cbv iota.
  unfold spec_processWideConfig, spec_conventionFile, loadConfig,
    verifyConfigFile, findValeIniInWorkingDir, overrideWarning.
  change (spec_resolved h) with (resolveConfigPath h).
  cbn [configPath].
  destruct (path_join h [cwd h; lit ".vale.ini"]) as [|j0 j] eqn:Ej;
    [congruence|].
  destruct (env_VALE_CONFIG_PATH h) as [[|c r]|]; cbn [truthy interpolate];
    cbv iota;
    try destruct (readable h (resolveConfigPath h (c :: r))) eqn:Er;
    destruct (readable h (j0 :: j));
    cbn [truthy]; cbv iota;
    eexists; (split; [run_statements; reflexivity|]);
    intros override Ho Hne Hr; try discriminate; injection Ho as <-;
    try congruence; cbn [app In]; auto.
Qed.

Lemma startup_installed (h : Host) (stdout stderr : jsstr) :
  exec h 0 versionQuery = Resolved stdout stderr ->
  path_join h [cwd h; lit ".vale.ini"] <> [] ->
  valeConfigPath (startup h) = spec_processWideConfig h
  /\ valeInstallCache (startup h) = probedCache (Resolved stdout stderr)
  /\ execLog (startup h) = [versionQuery]
  /\ (forall override,
        env_VALE_CONFIG_PATH h = Some override -> override <> [] ->
        readable h (resolveConfigPath h override) = false ->
        In (overrideWarning override) (stderrLog (startup h))).
Proof.
  intros H Hjoin.
  destruct (startup_installed_process h stdout stderr H Hjoin)
    as (lines & -> & Hw).
  unfold appendLog, withConfig, probedProcess.
  cbn [valeInstallCache valeConfigPath execLog stderrLog initialProcess
       List.length app].
  rewrite H. repeat split. exact Hw.
Qed.

Lemma orElse_priority (h : Host) (perCall : option jsstr) :
  orElse perCall (spec_processWideConfig h) = spec_configPriority h perCall.
Proof. now destruct perCall as [[|c r]|]. Qed.

Lemma bind_renderSync (m : M SyncResult) (p : Process) :
  bind m (fun syncResult =>
            if success syncResult
            then ret (textResponse (syncSuccessText syncResult))
            else ret (textResponse (syncFailureText syncResult))) p
  = bind m (fun syncResult => ret (renderSync syncResult)) p.
Proof.
  unfold bind, renderSync. destruct (m p) as [[r|msg] p']; [|reflexivity].
  now destruct (success r).
Qed.


(** On a host without the tool, [vale_sync] answers that the tool is not
    installed and resolves nothing. *)
Lemma vale_sync_not_installed (h : Host) (args : ToolArguments) (e : ExecError) :
  exec h 0 versionQuery = Rejected e ->
  callTool h (syncRequest (Some args)) (startup h)
  = (Returned (createValeNotInstalledResponse h), startup h).
Proof.
  intros H. destruct (startup_not_installed h e H) as (_ & Hi & _).
  rewrite callTool_vale_sync. unfold try_catch, vale_sync_case.
  unfold bind at 1. rewrite checkValeInstalled_hit by now rewrite Hi.
  rewrite Hi. reflexivity.
Qed.

(** ** What the handler leaves alone *)

Lemma try_catch_dispatch (h : Host) (m : M Response) (p : Process) :
  snd (try_catch m (dispatchFailure h) p) = snd (m p).
Proof.
  unfold try_catch. destruct (m p) as [[r|msg] p']; [reflexivity|].
  apply dispatchFailure_pure.
Qed.

Lemma syncValeStyles_cache (h : Host) (configPath : option jsstr) (p : Process) :
  valeInstallCache (snd (syncValeStyles h configPath p)) = valeInstallCache p.
Proof.
  unfold syncValeStyles.
  destruct configPath as [[|c r]|]; try destruct (readable h (c :: r));
    run_statements; unfold bind, execAsync;
    match goal with
    | |- context [exec h ?n ?c] => destruct (exec h n c)
    end; reflexivity.
Qed.

Lemma checkFile_cache (h : Host) (filePath : jsstr) (configPath : option jsstr)
  (p : Process) :
  valeInstallCache (snd (checkFile h filePath configPath p)) = valeInstallCache p.
Proof.
  unfold checkFile.
  destruct (readable h filePath); [|reflexivity].
  destruct (truthy configPath); run_statements; unfold bind, execAsync, lift;
    match goal with
    | |- context [exec h ?n ?c] => destruct (exec h n c) as [out err|e]
    end;
    try destruct (truthy (err_stdout e)); try reflexivity;
    unfold ret; cbv beta iota;
    match goal with
    | |- context [parseValeOutput h ?s] => destruct (parseValeOutput h s)
    end; reflexivity.
Qed.

(** No request changes a cache that is marked checked: only
    [clearValeInstallCache] resets it, and the handler never calls it. *)
Lemma callTool_keeps_cache (h : Host) (request : Request) (p : Process) :
  checked (valeInstallCache p) = true ->
  valeInstallCache (snd (callTool h request p)) = valeInstallCache p.
Proof.
  intros Hc. unfold callTool. rewrite try_catch_dispatch.
  pose proof (checkValeInstalled_hit h p Hc) as Hit.
  destruct (jsstr_eqb (name request) (lit "vale_status")).
  { unfold vale_status_case, bind. now rewrite Hit. }
  destruct (jsstr_eqb (name request) (lit "vale_sync")).
  { unfold vale_sync_case. destruct (arguments request) as [args|]; [|reflexivity].
    unfold bind at 1. rewrite Hit. cbv beta iota.
    destruct (negb (status_installed (statusOfCache (valeInstallCache p))));
      [reflexivity|].
    unfold bind at 1. unfold get_valeConfigPath.
    pose proof (syncValeStyles_cache h
                  (orElse (config_path args) (valeConfigPath p)) p) as Hs.
    unfold bind.
    destruct (syncValeStyles h (orElse (config_path args) (valeConfigPath p)) p)
      as [[r|msg] p']; [|exact Hs].
    now destruct (success r). }
  destruct (jsstr_eqb (name request) (lit "check_file")); [|reflexivity].
  unfold check_file_case. destruct (arguments request) as [args|]; [|reflexivity].
  destruct (truthy (path args)); [|reflexivity].
  cbn [negb]. unfold bind at 1. rewrite Hit. cbv beta iota.
  destruct (negb (status_installed (statusOfCache (valeInstallCache p))));
    [reflexivity|].
  unfold bind at 1. unfold get_valeConfigPath.
  pose proof (checkFile_cache h (interpolate (path args)) (valeConfigPath p) p)
    as Hf.
  unfold bind.
  now destruct (checkFile h (interpolate (path args)) (valeConfigPath p) p)
    as [[r|msg] p'].
Qed.

(** The summary of a completed check counts the issues of every file of
    the raw output. *)
Lemma analyseOutput_total (h : Host) (absolutePath stdout : jsstr)
  (result : CheckFileResult) :
  analyseOutput h absolutePath stdout = Returned result ->
  exists rawOutput,
    parseValeOutput h stdout = Returned rawOutput
    /\ issues result = normalizeIssues rawOutput
    /\ total (summary result)
       = list_sum (map (fun entry => List.length (snd entry)) rawOutput).
Proof.
  unfold analyseOutput. destruct (parseValeOutput h stdout) as [raw|msg];
    [|discriminate].
  intros E. injection E as <-. exists raw. cbn [issues summary].
  destruct (generateSummary_counts (normalizeIssues raw)) as (Ht & _).
  rewrite Ht, normalizeIssues_flat_map, flat_map_length_sum.
  repeat split. f_equal. apply map_ext. intros e. apply length_map.
Qed.

(** ** The end-to-end scenarios of the specification *)

(** One file with one issue: one normalised issue, a summary of one
    error, and a report with one entry, for line 3 and rule
    [Vale.Spelling]. *)
Example scenario_one_issue :
  parseIssues silentHost scenarioOutput = Returned [sampleIssue (lit "error") 3]
  /\ generateSummary [sampleIssue (lit "error") 3]
     = {| total := 1; errors := 1; warnings := 0; suggestions := 0 |}
  /\ entries [sampleIssue (lit "error") 3]
     = [(lit "error", sampleIssue (lit "error") 3)]
  /\ issueBlock (lit "error") (sampleIssue (lit "error") 3)
     = [55357; 56628]%N ++ lit " **Line 3** (ERROR): Typo" ++ nl
         ++ lit "   " ++ arrow ++ lit " Rule: `Vale.Spelling`" ++ nl ++ nl.
Proof. repeat split. Qed.

(** No file at all: no issue, and the fixed message. *)
Example scenario_no_files :
  parseIssues silentHost (lit "{}") = Returned []
  /\ formatValeResults [] (generateSummary []) None = noIssuesMessage.
Proof. split; reflexivity. Qed.

(** The tool not installed: [installed] is false, the instructions are
    there, and no version is written. *)
Example scenario_not_installed :
  fst (callTool brokenHost (statusRequest None) initialProcess)
  = Returned
      (textResponse
         (unlines
            [ lit "{";
              lit "  " ++ quoted "installed" ++ lit ": false,";
              lit "  " ++ quoted "platform" ++ lit ": " ++ quoted "linux" ++ lit ",";
              lit "  " ++ quoted "installation_instructions" ++ lit ": {";
              lit "    " ++ quoted "platform" ++ lit ": " ++ quoted "linux" ++ lit ",";
              lit "    " ++ quoted "documentation" ++ lit ": "
                ++ quoted "https://vale.sh/docs/vale-cli/installation/" ++ lit ",";
              lit "    " ++ quoted "methods" ++ lit ": [";
              lit "      {";
              lit "        " ++ quoted "name" ++ lit ": " ++ quoted "Snap" ++ lit ",";
              lit "        " ++ quoted "command" ++ lit ": "
                ++ quoted "sudo snap install vale";
              lit "      },";
              lit "      {";
              lit "        " ++ quoted "name" ++ lit ": "
                ++ quoted "Download binary" ++ lit ",";
              lit "        " ++ quoted "command" ++ lit ": "
                ++ quoted "Download from GitHub releases and add to PATH" ++ lit ",";
              lit "        " ++ quoted "url" ++ lit ": "
                ++ quoted "https://github.com/errata-ai/vale/releases";
              lit "      }";
              lit "    ]";
              lit "  },";
              lit "  " ++ quoted "message" ++ lit ": "
                ++ quoted "Vale is not installed. Please install it to use Vale linting tools.";
              lit "}" ])).
Proof. reflexivity. Qed.

(** Two files with one and two issues: the three issues in the order of
    the keys, and nothing left of the file names. *)
Example scenario_two_files :
  normalizeIssues
    [ (lit "a.md", [sampleRawIssue (lit "warning") 7]);
      (lit "b.md", [sampleRawIssue (lit "error") 3;
                    sampleRawIssue (lit "warning") 9]) ]
  = mixedIssues.
Proof. reflexivity. Qed.

(** * Further properties of the code *)

(** ** Summaries *)

Lemma countSeverity_app (tag : jsstr) (a b : list NormalizedValeIssue) :
  countSeverity tag (a ++ b) = countSeverity tag a + countSeverity tag b.
Proof. unfold countSeverity. now rewrite filter_app, length_app. Qed.

(** X1.  The summary of two issue lists put together is the sum of their
    summaries, field by field: merging the issues of several files
    loses no count. *)
Theorem summary_of_concatenation (a b : list NormalizedValeIssue) :
  total (generateSummary (a ++ b))
    = total (generateSummary a) + total (generateSummary b)
  /\ errors (generateSummary (a ++ b))
     = errors (generateSummary a) + errors (generateSummary b)
  /\ warnings (generateSummary (a ++ b))
     = warnings (generateSummary a) + warnings (generateSummary b)
  /\ suggestions (generateSummary (a ++ b))
     = suggestions (generateSummary a) + suggestions (generateSummary b).
Proof.
  destruct (generateSummary_counts (a ++ b)) as (Ht & He & Hw & Hs).
  destruct (generateSummary_counts a) as (Hta & Hea & Hwa & Hsa).
  destruct (generateSummary_counts b) as (Htb & Heb & Hwb & Hsb).
  rewrite Ht, He, Hw, Hs, Hta, Hea, Hwa, Hsa, Htb, Heb, Hwb, Hsb.
  rewrite length_app, !countSeverity_app. repeat split.
Qed.

(** X2.  The three buckets of a summary never hold more than [total]:
    their sum is the number of issues with a recognised severity, and
    what is missing to [total] is the number of the others. *)
Theorem summary_buckets_bounded (l : list NormalizedValeIssue) :
  errors (generateSummary l) + warnings (generateSummary l)
    + suggestions (generateSummary l)
    + List.length (filter (fun i => negb (recognized (severity i))) l)
  = total (generateSummary l)
  /\ errors (generateSummary l) + warnings (generateSummary l)
     + suggestions (generateSummary l) <= total (generateSummary l).
Proof.
  destruct (generateSummary_counts l) as (Ht & He & Hw & Hs).
  rewrite Ht, He, Hw, Hs, buckets_recognized. clear Ht He Hw Hs.
  assert (E : List.length (filter (fun i => recognized (severity i)) l)
              + List.length (filter (fun i => negb (recognized (severity i))) l)
              = List.length l).
  { induction l as [|i l IH]; [reflexivity|]. cbn [filter].
    destruct (recognized (severity i)); cbn [negb List.length]; lia. }
  lia.
Qed.

(** ** The report *)

Lemma groups_permutation (issues : list NormalizedValeIssue) :
  Permutation
    (filter (hasSeverity (lit "error")) issues
       ++ filter (hasSeverity (lit "warning")) issues
       ++ filter (hasSeverity (lit "suggestion")) issues)
    (filter (fun i => recognized (severity i)) issues).
Proof.
  induction issues as [|i issues IH]; [constructor|].
  cbn [filter]. expose_severity i.
  change (recognized (severity i))
    with (jsstr_eqb (severity i) (lit "error")
          || jsstr_eqb (severity i) (lit "warning")
          || jsstr_eqb (severity i) (lit "suggestion")).
  severity_cases i; cbn [app].
  - now constructor.
  - rewrite <- Permutation_middle. now constructor.
  - rewrite app_assoc, <- Permutation_middle, <- app_assoc. now constructor.
  - exact IH.
Qed.

(** The entries of a group carry the mark and the label of the severity
    of their own issue. *)
Lemma group_entries (numeral : Z -> jsstr) (tag : jsstr)
  (issues : list NormalizedValeIssue) :
  flat_map (spec_entry numeral (spec_mark tag) (spec_label tag))
    (filter (hasSeverity tag) issues)
  = flat_map
      (fun i =>
         spec_entry numeral (spec_mark (severity i)) (spec_label (severity i)) i)
      (filter (hasSeverity tag) issues).
Proof.
  induction issues as [|i issues IH]; [reflexivity|].
  cbn [filter].
  destruct (hasSeverity tag i) eqn:E; [|exact IH].
  apply jsstr_eqb_eq in E. cbn [flat_map]. now rewrite IH, E.
Qed.

(** X3.  The report of a non-empty issue list has one entry for each
    issue with a recognised severity and none for any other: its text is
    the head followed by the entries of a list of issues that is a
    permutation of the recognised issues of the input, each entry under
    the mark and the label of its issue's severity.  The number of
    entries is [errors + warnings + suggestions] of the summary, which
    may be less than the [total] the head prints.  [numeral] is the
    engine's rendering of a number: decimal digits on the safe
    integers. *)
Theorem report_entries_permutation (issues : list NormalizedValeIssue)
  (context : option jsstr) :
  issues <> [] ->
  exists (numeral : Z -> jsstr) (rendered : list NormalizedValeIssue),
    rendersSafeIntegers numeral
    /\ formatValeResults issues (generateSummary issues) context
       = spec_head numeral (generateSummary issues) context
         ++ flat_map
              (fun i =>
                 spec_entry numeral (spec_mark (severity i))
                   (spec_label (severity i)) i)
              rendered
    /\ Permutation rendered (filter (fun i => recognized (severity i)) issues)
    /\ List.length rendered
       = errors (generateSummary issues) + warnings (generateSummary issues)
         + suggestions (generateSummary issues).
Proof.
  intros Hne. exists Z_toString.
  exists (filter (hasSeverity (lit "error")) issues
            ++ filter (hasSeverity (lit "warning")) issues
            ++ filter (hasSeverity (lit "suggestion")) issues).
  split; [exact Z_toString_safe|]. split; [|split].
  - rewrite (formatValeResults_text issues _ context Hne), !flat_map_app.
    rewrite <- !group_entries. reflexivity.
  - apply groups_permutation.
  - destruct (generateSummary_counts issues) as (_ & He & Hw & Hs).
    rewrite He, Hw, Hs, !length_app. unfold countSeverity. lia.
Qed.

(** X3 on an issue tagged [info], an error and an issue tagged [Error]:
    the head announces three issues, and the error has the only entry. *)
Lemma report_entries_permutation_witness :
  exists (numeral : Z -> jsstr) (rendered : list NormalizedValeIssue),
    rendersSafeIntegers numeral
    /\ formatValeResults partlyRecognized (generateSummary partlyRecognized)
         None
       = spec_head numeral (generateSummary partlyRecognized) None
         ++ flat_map
              (fun i =>
                 spec_entry numeral (spec_mark (severity i))
                   (spec_label (severity i)) i)
              rendered
    /\ Permutation rendered [sampleIssue (lit "error") 3]
    /\ List.length rendered = 1
    /\ total (generateSummary partlyRecognized) = 3.
Proof.
  destruct (report_entries_permutation partlyRecognized None)
    as (numeral & rendered & Hn & E & P & L); [discriminate|].
  exists numeral, rendered.
  split; [exact Hn|]. split; [exact E|]. split; [exact P|].
  split; [exact L | reflexivity].
Defined.

(** ** Normalisation *)

(** X4.  Normalisation never reads [Action]: whatever the action fields
    of a raw output are replaced with, the normalised issues are the
    same; and the issues of two raw outputs put together are the issues
    of the first followed by those of the second. *)
Theorem normalizeIssues_forgets_action (a b : ValeRawOutput)
  (replace : ValeIssue -> option ValeAction) :
  normalizeIssues
    (map (fun entry =>
            (fst entry,
             map (fun issue => withAction issue (replace issue)) (snd entry)))
       a)
    = normalizeIssues a
  /\ normalizeIssues (a ++ b) = normalizeIssues a ++ normalizeIssues b.
Proof.
  rewrite !normalizeIssues_flat_map. split.
  - induction a as [|e a IH]; [reflexivity|].
    cbn [map flat_map snd]. rewrite IH, map_map. reflexivity.
  - apply flat_map_app.
Qed.

(** ** Code fences *)

(** X5.  A raw output that starts with an opening brace and ends with a
    closing brace, as every JSON object does, reaches [JSON.parse] as it
    is: nothing is stripped, and the outcome of [parseValeOutput] is the
    outcome of [JSON.parse] on the very text. *)
Theorem object_text_parsed_verbatim (h : Host) (body : jsstr) :
  stripCodeFence (lit "{" ++ body ++ lit "}") = lit "{" ++ body ++ lit "}"
  /\ parseValeOutput h (lit "{" ++ body ++ lit "}")
     = match JSON_parse h (lit "{" ++ body ++ lit "}") with
       | inr raw => Returned raw
       | inl msg => Thrown (lit "Failed to parse Vale JSON output: " ++ msg)
       end.
Proof.
  assert (R : rev (lit "{" ++ body ++ lit "}") = 125%N :: rev body ++ lit "{").
  { rewrite !rev_app_distr. reflexivity. }
  assert (E : stripCodeFence (lit "{" ++ body ++ lit "}")
              = lit "{" ++ body ++ lit "}").
  { rewrite stripCodeFence_unfenced.
    - unfold trim, trimStart, trimEnd.
      change (dropSpaces (lit "{" ++ body ++ lit "}"))
        with (lit "{" ++ body ++ lit "}").
      rewrite R. cbn [dropSpaces].
      change (isSpace 125) with false. cbv iota.
      rewrite <- R. apply rev_involutive.
    - reflexivity.
    - rewrite endsWith_trimEnd, R. reflexivity. }
  split; [exact E|]. unfold parseValeOutput. rewrite E. reflexivity.
Qed.

(** ** The styles-directory heuristic *)

Lemma includes_app_r (p s b : jsstr) :
  includes p s = true -> includes p (s ++ b) = true.
Proof.
  induction s as [|c s IH]; cbn [includes app]; intros H.
  - rewrite orb_false_r in H.
    destruct b as [|d b]; cbn [includes].
    + now rewrite orb_false_r.
    + apply orb_true_iff. left. now apply (startsWith_app p [] (d :: b)).
  - apply orb_true_iff in H. apply orb_true_iff. destruct H as [H|H].
    + left. now apply (startsWith_app p (c :: s) b).
    + right. now apply IH.
Qed.

Lemma includes_app_l (p a s : jsstr) :
  includes p s = true -> includes p (a ++ s) = true.
Proof.
  intros H. induction a as [|c a IH]; [exact H|].
  cbn [app includes]. apply orb_true_iff. now right.
Qed.

Lemma isStylesDirectoryError_context (before m after : jsstr) :
  isStylesDirectoryError m = true ->
  isStylesDirectoryError (before ++ m ++ after) = true.
Proof.
  unfold isStylesDirectoryError, toUpperCase. intros H. rewrite !map_app.
  rewrite !orb_true_iff in *.
  destruct H as [[H|H]|H]; [left; left | left; right | right];
    now apply includes_app_l, includes_app_r.
Qed.

(** X6.  The test for a missing styles directory looks for its phrases
    anywhere in the message, and it ignores the case of the letters [a]
    to [z]: a message that passes still passes with any text before and
    after it, and two messages that differ only in the case of these
    letters get the same verdict. *)
Theorem styles_signature_anywhere (before m after variant : jsstr) :
  (isStylesDirectoryError m = true ->
   isStylesDirectoryError (before ++ m ++ after) = true)
  /\ (map upper variant = map upper m ->
      isStylesDirectoryError variant = isStylesDirectoryError m).
Proof.
  split; [apply isStylesDirectoryError_context|].
  intros H. unfold isStylesDirectoryError, toUpperCase. now rewrite H.
Qed.

(** X6 on the message Vale prints, inside the error [checkFile] throws,
    and on the same message in capitals. *)
Lemma styles_signature_anywhere_witness :
  isStylesDirectoryError
    (lit "Vale execution failed: " ++ lit "e100 [loadStyles] runtime error"
       ++ nl) = true
  /\ isStylesDirectoryError (lit "E100 [LOADSTYLES] RUNTIME ERROR")
     = isStylesDirectoryError (lit "e100 [loadStyles] runtime error").
Proof.
  destruct (styles_signature_anywhere (lit "Vale execution failed: ")
              (lit "e100 [loadStyles] runtime error") nl
              (lit "E100 [LOADSTYLES] RUNTIME ERROR")) as (A & B).
  split; [apply A | apply B]; reflexivity.
Defined.

(** ** Installation instructions and the advertised tools *)

(** X7.  On every platform, known or not, the installation instructions
    name the platform, are not empty, and end with the method of
    downloading a binary from the releases page. *)
Theorem instructions_offer_download (h : Host) :
  instr_platform (getInstallationInstructions h) = platform h
  /\ instr_methods (getInstallationInstructions h) <> []
  /\ exists others m,
       instr_methods (getInstallationInstructions h) = others ++ [m]
       /\ method_name m = lit "Download binary"
       /\ method_url m = Some releasesUrl
       /\ Forall (fun o => method_url o = None) others.
Proof.
  unfold getInstallationInstructions. cbn [instr_platform instr_methods].
  split; [reflexivity|].
  destruct (jsstr_eqb (platform h) (lit "darwin")).
  { split; [discriminate|]. eexists [_]. eexists.
    repeat split. repeat constructor. }
  destruct (jsstr_eqb (platform h) (lit "linux")).
  { split; [discriminate|]. eexists [_]. eexists.
    repeat split. repeat constructor. }
  destruct (jsstr_eqb (platform h) (lit "win32")).
  { split; [discriminate|]. eexists [_; _]. eexists.
    repeat split. repeat constructor. }
  split; [discriminate|]. exists []. eexists. repeat split. constructor.
Qed.

Lemma try_catch_returns (h : Host) (m : M Response) (p : Process) :
  exists response, fst (try_catch m (dispatchFailure h) p) = Returned response.
Proof.
  unfold try_catch. destruct (m p) as [[r|msg] p'].
  - now exists r.
  - apply dispatchFailure_pure.
Qed.

(** X8.  No request makes the handler throw: whatever the tool name, the
    arguments and the state of the process, and whatever the host does,
    [callTool] returns a response. *)
Theorem callTool_never_throws (h : Host) (request : Request) (p : Process) :
  exists response, fst (callTool h request p) = Returned response.
Proof. unfold callTool. apply try_catch_returns. Qed.

(** X9.  A request is answered by one of the three cases exactly when its
    tool name is one that [TOOLS] advertises; any other name gets the
    unknown-tool error that repeats the name, and the process is left as
    it was. *)
Theorem advertised_tools_are_handled (h : Host) (request : Request)
  (p : Process) :
  (existsb (fun tool => jsstr_eqb (tool_name tool) (name request)) TOOLS = false
   /\ callTool h request p = (Returned (unknownToolResponse (name request)), p))
  \/ (existsb (fun tool => jsstr_eqb (tool_name tool) (name request)) TOOLS = true
      /\ (callTool h request p
            = try_catch (vale_status_case h) (dispatchFailure h) p
          \/ callTool h request p
             = try_catch (vale_sync_case h (arguments request))
                 (dispatchFailure h) p
          \/ callTool h request p
             = try_catch (check_file_case h (arguments request))
                 (dispatchFailure h) p)).
Proof.
  unfold callTool, TOOLS. cbn [existsb tool_name].
  rewrite (jsstr_eqb_sym (lit "vale_status")), (jsstr_eqb_sym (lit "vale_sync")),
    (jsstr_eqb_sym (lit "check_file")).
  destruct (jsstr_eqb (name request) (lit "vale_status")).
  { right. split; [reflexivity|]. now left. }
  destruct (jsstr_eqb (name request) (lit "vale_sync")).
  { right. split; [reflexivity|]. right. now left. }
  destruct (jsstr_eqb (name request) (lit "check_file")).
  { right. split; [reflexivity|]. right. now right. }
  left. split; reflexivity.
Qed.

(** ** The gated operations *)

Lemma probe_pair (h : Host) (p : Process) :
  checkValeInstalled h p
  = (Returned (statusOfCache (valeInstallCache (snd (checkValeInstalled h p)))),
     snd (checkValeInstalled h p)).
Proof.
  pose proof (checkValeInstalled_returns_cache h p) as R.
  destruct (checkValeInstalled h p) as [r p']. cbn [fst snd] in *. now rewrite R.
Qed.

(** The two gated cases, once the probe has answered. *)
Lemma vale_sync_gate (h : Host) (args : ToolArguments) (p : Process) :
  vale_sync_case h (Some args) p
  = (if installed (valeInstallCache (snd (checkValeInstalled h p)))
     then
       bind (syncValeStyles h
               (orElse (config_path args)
                  (valeConfigPath (snd (checkValeInstalled h p)))))
         (fun syncResult => ret (renderSync syncResult))
     else ret (createValeNotInstalledResponse h))
      (snd (checkValeInstalled h p)).
Proof.
  pose proof (probe_pair h p) as E.
  set (p1 := snd (checkValeInstalled h p)) in *.
  unfold vale_sync_case. unfold bind at 1. rewrite E.
  cbn [statusOfCache status_installed].
  destruct (installed (valeInstallCache p1)); cbn [negb]; [|reflexivity].
  unfold bind at 1. unfold get_valeConfigPath. apply bind_renderSync.
Qed.

Lemma check_file_gate (h : Host) (args : ToolArguments) (p : Process) :
  truthy (path args) = true ->
  check_file_case h (Some args) p
  = (if installed (valeInstallCache (snd (checkValeInstalled h p)))
     then
       bind (checkFile h (interpolate (path args))
               (valeConfigPath (snd (checkValeInstalled h p))))
         (fun result => ret (checkFileResponse result))
     else ret (createValeNotInstalledResponse h))
      (snd (checkValeInstalled h p)).
Proof.
  intros Hp. pose proof (probe_pair h p) as E.
  set (p1 := snd (checkValeInstalled h p)) in *.
  unfold check_file_case. rewrite Hp. cbn [negb].
  unfold bind at 1. rewrite E.
  cbn [statusOfCache status_installed].
  destruct (installed (valeInstallCache p1)); cbn [negb]; reflexivity.
Qed.



Lemma fst_dispatchFailure (h : Host) (msg : jsstr) (p : Process) :
  fst (dispatchFailure h msg p)
  = Returned
      (textResponse
         (if isStylesDirectoryError msg then configurationErrorText msg
          else genericErrorText h msg)).
Proof.
  unfold dispatchFailure, genericErrorText, ret.
  now destruct (isStylesDirectoryError msg).
Qed.

Lemma try_catch_thrown {A} (m : M A) (handler : jsstr -> M A) (p p' : Process)
  (msg : jsstr) :
  m p = (Thrown msg, p') -> try_catch m handler p = handler msg p'.
Proof. unfold try_catch. now intros ->. Qed.

Lemma bind_thrown {A B} (m : M A) (k : A -> M B) (p p' : Process) (msg : jsstr) :
  m p = (Thrown msg, p') -> bind m k p = (Thrown msg, p').
Proof. unfold bind. now intros ->. Qed.

Lemma checkFile_not_found (h : Host) (filePath : jsstr)
  (configPath : option jsstr) (p : Process) :
  readable h filePath = false ->
  checkFile h filePath configPath p = (Thrown (fileNotFoundMessage filePath), p).
Proof. intros H. unfold checkFile. unfold bind at 1. now rewrite H. Qed.

(** X11.  [check_file] on a file that cannot be read, the tool being
    installed: [checkFile] throws the file-not-found error that names the
    path, before any command is built; the handler answers from its
    [catch] clause and the process is as the probe left it.  The answer
    is the generic error payload, unless the message passes the test for a
    missing styles directory, as it does whenever the path itself holds
    one of the phrases of that test: then the answer is the advice to run
    [vale_sync]. *)
Theorem check_file_unreadable (h : Host) (args : ToolArguments) (p : Process) :
  truthy (path args) = true ->
  readable h (interpolate (path args)) = false ->
  installed (valeInstallCache (snd (checkValeInstalled h p))) = true ->
  let filePath := interpolate (path args) in
  (forall configPath q,
     checkFile h filePath configPath q = (Thrown (fileNotFoundMessage filePath), q))
  /\ snd (callTool h (checkFileRequest (Some args)) p)
     = snd (checkValeInstalled h p)
  /\ fst (callTool h (checkFileRequest (Some args)) p)
     = Returned
         (textResponse
            (if isStylesDirectoryError (fileNotFoundMessage filePath)
             then configurationErrorText (fileNotFoundMessage filePath)
             else genericErrorText h (fileNotFoundMessage filePath)))
  /\ (isStylesDirectoryError filePath = true ->
      fst (callTool h (checkFileRequest (Some args)) p)
      = Returned
          (textResponse (configurationErrorText (fileNotFoundMessage filePath)))).
Proof.
  intros Hp Hr Hi filePath.
  assert (E : callTool h (checkFileRequest (Some args)) p
              = dispatchFailure h (fileNotFoundMessage filePath)
                  (snd (checkValeInstalled h p))).
  { rewrite callTool_check_file.
    apply try_catch_thrown. rewrite check_file_gate by assumption.
    rewrite Hi. apply bind_thrown. now apply checkFile_not_found. }
  split; [intros c q; now apply checkFile_not_found|].
  rewrite E. split; [apply dispatchFailure_pure|].
  split; [apply fst_dispatchFailure|].
  intros Hs. rewrite fst_dispatchFailure.
  assert (Hm : isStylesDirectoryError (fileNotFoundMessage filePath) = true).
  { unfold fileNotFoundMessage.
    rewrite <- (app_nil_r filePath).
    now apply (isStylesDirectoryError_context
                 (lit "File not found or not readable: ") filePath []). }
  now rewrite Hm.
Qed.

(** X11 on a host that can read no file: an ordinary name gets the
    generic payload, a name that holds [e100] gets the advice to run
    [vale_sync]. *)
Lemma check_file_unreadable_witness :
  fst (callTool unreadableHost (checkFileRequest (Some sampleFileArguments))
         initialProcess)
    = Returned
        (textResponse
           (genericErrorText unreadableHost (fileNotFoundMessage sampleFile)))
  /\ fst (callTool unreadableHost (checkFileRequest (Some stylesNamedArguments))
            initialProcess)
     = Returned
         (textResponse
            (configurationErrorText
               (fileNotFoundMessage (lit "/work/e100-notes.md")))).
Proof.
  split.
  - apply (check_file_unreadable unreadableHost sampleFileArguments
             initialProcess eq_refl eq_refl eq_refl).
  - apply (check_file_unreadable unreadableHost stylesNamedArguments
             initialProcess eq_refl eq_refl eq_refl).
    reflexivity.
Defined.

(** X12.  [check_file] on a readable file, the tool being installed: when
    the check ends in an error without standard output and the diagnostic
    passes the test for a missing styles directory, the response is the
    advice to run [vale_sync], and it quotes the error with its
    diagnostic; the raw error payload is not sent. *)
Theorem missing_styles_guidance (h : Host) (args : ToolArguments) (p : Process)
  (e : ExecError) :
  let filePath := interpolate (path args) in
  let p1 := snd (checkValeInstalled h p) in
  truthy (path args) = true ->
  readable h filePath = true ->
  installed (valeInstallCache p1) = true ->
  exec h (List.length (execLog p1)) (checkCall h filePath (valeConfigPath p1))
    = Rejected e ->
  truthy (err_stdout e) = false ->
  isStylesDirectoryError (executionDiagnostic e) = true ->
  fst (callTool h (checkFileRequest (Some args)) p)
  = Returned
      (textResponse
         (configurationErrorText
            (lit "Vale execution failed: " ++ executionDiagnostic e))).
Proof.
  intros filePath p1 Hp Hr Hi He Ht Hs.
  destruct (checkFile_run h filePath (valeConfigPath p1) p1 Hr) as [Hrun _].
  rewrite He, Ht in Hrun.
  destruct (checkFile h filePath (valeConfigPath p1) p1) as [r p2] eqn:Ec.
  cbn [fst] in Hrun. subst r.
  rewrite callTool_check_file.
  rewrite (try_catch_thrown _ _ p p2
             (lit "Vale execution failed: " ++ executionDiagnostic e)).
  - rewrite fst_dispatchFailure.
    assert (Hm : isStylesDirectoryError
                   (lit "Vale execution failed: " ++ executionDiagnostic e) = true).
    { rewrite <- (app_nil_r (executionDiagnostic e)).
      now apply (isStylesDirectoryError_context (lit "Vale execution failed: ")
                   (executionDiagnostic e) []). }
    now rewrite Hm.
  - rewrite check_file_gate by assumption. fold p1. rewrite Hi.
    now apply bind_thrown.
Qed.

(** X12 on a host whose checks end in Vale's error for a missing styles
    directory. *)
Lemma missing_styles_guidance_witness :
  fst (callTool missingStylesHost (checkFileRequest (Some sampleFileArguments))
         initialProcess)
  = Returned
      (textResponse
         (configurationErrorText
            (lit "Vale execution failed: "
               ++ lit "E100 [loadStyles] Runtime error"))).
Proof.
  apply (missing_styles_guidance missingStylesHost sampleFileArguments
           initialProcess missingStylesError eq_refl eq_refl eq_refl eq_refl
           eq_refl eq_refl).
Defined.

(** ** The result of a check *)

Lemma analyseOutput_consistent (h : Host) (absolutePath stdout : jsstr)
  (result : CheckFileResult) :
  analyseOutput h absolutePath stdout = Returned result ->
  file result = absolutePath
  /\ summary result = generateSummary (issues result)
  /\ formatted result
     = formatValeResults (issues result) (summary result) (Some (file result)).
Proof.
  unfold analyseOutput. destruct (parseValeOutput h stdout) as [raw|msg];
    [|discriminate].
  intros E. injection E as <-. repeat split.
Qed.

(** X13.  Whenever [checkFile] returns, the parts of its result agree:
    the file was readable, [file] is the path made absolute, [summary] is
    the summary of [issues], so that [total] is their number, and
    [formatted] is the report of these issues and this summary under this
    file name; and on a host whose [path.resolve] yields absolute paths,
    as Node's does, [file] is absolute. *)
Theorem checkFile_result_consistent (h : Host) (filePath : jsstr)
  (configPath : option jsstr) (p : Process) (result : CheckFileResult) :
  fst (checkFile h filePath configPath p) = Returned result ->
  readable h filePath = true
  /\ file result = absolutePathOf h filePath
  /\ summary result = generateSummary (issues result)
  /\ total (summary result) = List.length (issues result)
  /\ formatted result
     = formatValeResults (issues result) (summary result) (Some (file result))
  /\ ((forall parts, path_isAbsolute h (path_resolve h parts) = true) ->
      path_isAbsolute h (file result) = true).
Proof.
  intros E.
  destruct (readable h filePath) eqn:Hr.
  2:{ rewrite checkFile_not_found in E by assumption. discriminate. }
  destruct (checkFile_run h filePath configPath p Hr) as [Hrun _].
  rewrite E in Hrun. symmetry in Hrun.
  assert (C : file result = absolutePathOf h filePath
              /\ summary result = generateSummary (issues result)
              /\ formatted result
                 = formatValeResults (issues result) (summary result)
                     (Some (file result))).
  { destruct (exec h _ _) as [out err|e].
    - now apply analyseOutput_consistent in Hrun.
    - destruct (truthy (err_stdout e)); [|discriminate].
      now apply analyseOutput_consistent in Hrun. }
  destruct C as (Cf & Cs & Cr).
  split; [reflexivity|]. split; [exact Cf|]. split; [exact Cs|].
  split; [rewrite Cs; apply generateSummary_counts|].
  split; [exact Cr|].
  intros Habs. rewrite Cf. unfold absolutePathOf.
  destruct (path_isAbsolute h filePath) eqn:Ha; [exact Ha | apply Habs].
Qed.

Lemma posix_resolve_absolute (workingDir : jsstr) (parts : list jsstr) :
  PosixPath.isAbsolute (PosixPath.resolve workingDir parts) = true.
Proof.
  unfold PosixPath.resolve.
  destruct (PosixPath.resolveFrom (rev parts) []) as [resolved absolute].
  now destruct (PosixPath.normalizeString _ false).
Qed.

(** X13 on the scenario of one file with one issue, asked for by a
    relative name. *)
Lemma checkFile_result_consistent_witness :
  fst (checkFile scenarioHost (lit "a.md") None initialProcess)
    = Returned scenarioResult
  /\ readable scenarioHost (lit "a.md") = true
  /\ file scenarioResult = absolutePathOf scenarioHost (lit "a.md")
  /\ summary scenarioResult = generateSummary (issues scenarioResult)
  /\ total (summary scenarioResult) = List.length (issues scenarioResult)
  /\ formatted scenarioResult
     = formatValeResults (issues scenarioResult) (summary scenarioResult)
         (Some (file scenarioResult))
  /\ ((forall parts,
         path_isAbsolute scenarioHost (path_resolve scenarioHost parts) = true) ->
      path_isAbsolute scenarioHost (file scenarioResult) = true).
Proof.
  split; [reflexivity|].
  apply (checkFile_result_consistent scenarioHost (lit "a.md") None
           initialProcess scenarioResult).
  reflexivity.
Defined.

(** ** Synchronising styles *)

(** [syncValeStyles], outcome by outcome. *)
Lemma syncValeStyles_run (h : Host) (configPath : option jsstr) (p : Process) :
  execLog (snd (syncValeStyles h configPath p))
    = execLog p ++ [syncCall h configPath]
  /\ valeConfigPath (snd (syncValeStyles h configPath p)) = valeConfigPath p
  /\ fst (syncValeStyles h configPath p)
     = Returned
         match exec h (List.length (execLog p)) (syncCall h configPath) with
         | Resolved stdout stderr =>
             {| success := true;
                sync_message := lit "Vale styles synchronized successfully";
                output := Some (syncOutput stdout stderr);
                sync_error := None |}
         | Rejected e =>
             {| success := false;
                sync_message := lit "Failed to sync Vale styles";
                output := None;
                sync_error :=
                  if instanceofError e then err_message e
                  else Some (lit "Unknown error") |}
         end
  /\ (truthy configPath = true ->
      readable h (interpolate configPath) = false ->
      In (inaccessibleWarning (interpolate configPath))
        (stderrLog (snd (syncValeStyles h configPath p)))).
Proof.
  unfold syncValeStyles, syncCall, syncOutput, inaccessibleWarning.
  destruct configPath as [[|c r]|]; cbn [truthy interpolate andb];
    try destruct (readable h (c :: r)); cbv iota;
    run_statements; unfold bind, execAsync, ret;
    cbn [fst snd execLog valeConfigPath stderrLog appendLog];
    unfold jsstr, ExecCall;
    match goal with
    | |- context [exec h ?n ?c] => destruct (exec h n c)
    end;
    cbn [fst snd execLog valeConfigPath stderrLog];
    repeat split; try discriminate;
    intros _ _; rewrite !in_app_iff; cbn [In]; auto.
Qed.

(** X14.  [syncValeStyles] never throws and runs exactly one command.  It
    reports success exactly when that command resolved, with the trimmed
    output and no error; on failure it reports no output.  A
    configuration that is not given, or is given but cannot be read,
    leaves the plain [vale sync] in the working directory of the process,
    with a warning in the second case: nothing else is tried in its
    place. *)
Theorem syncValeStyles_one_command (h : Host) (configPath : option jsstr)
  (p : Process) :
  let out := exec h (List.length (execLog p)) (syncCall h configPath) in
  let after := snd (syncValeStyles h configPath p) in
  (exists r,
     fst (syncValeStyles h configPath p) = Returned r
     /\ success r = isResolved out
     /\ (forall stdout stderr, out = Resolved stdout stderr ->
         output r = Some (syncOutput stdout stderr) /\ sync_error r = None)
     /\ (forall e, out = Rejected e -> output r = None))
  /\ execLog after = execLog p ++ [syncCall h configPath]
  /\ valeConfigPath after = valeConfigPath p
  /\ (truthy configPath && readable h (interpolate configPath) = false ->
      syncCall h configPath = (lit "vale sync", Some (cwd h)))
  /\ (truthy configPath = true ->
      readable h (interpolate configPath) = false ->
      In (inaccessibleWarning (interpolate configPath)) (stderrLog after)).
Proof.
  intros out after.
  destruct (syncValeStyles_run h configPath p) as (Hlog & Hcfg & Hres & Hwarn).
  fold out in Hres. fold after in Hlog, Hcfg, Hwarn.
  split.
  - eexists. split; [exact Hres|].
    destruct out as [stdout stderr|e]; cbn [success output sync_error isResolved].
    + split; [reflexivity|]. split; [|discriminate].
      intros o e E. injection E as <- <-. now split.
    + split; [reflexivity|]. split; [discriminate|]. now intros.
  - split; [exact Hlog|]. split; [exact Hcfg|]. split; [|exact Hwarn].
    unfold syncCall. now intros ->.
Qed.

(** ** External commands *)

Lemma probe_log (h : Host) (p : Process) :
  execLog (snd (checkValeInstalled h p))
  = execLog p ++ (if checked (valeInstallCache p) then [] else [versionQuery]).
Proof.
  destruct (checked (valeInstallCache p)) eqn:Hc.
  - rewrite checkValeInstalled_hit by assumption. cbn [snd].
    now rewrite app_nil_r.
  - now rewrite checkValeInstalled_miss.
Qed.

Lemma snd_bind_ret {A B} (m : M A) (f : A -> B) (p : Process) :
  snd (bind m (fun a => ret (f a)) p) = snd (m p).
Proof. unfold bind, ret. now destruct (m p) as [[a|msg] p']. Qed.

Lemma checkFile_log (h : Host) (filePath : jsstr) (configPath : option jsstr)
  (p : Process) :
  execLog (snd (checkFile h filePath configPath p))
  = execLog p
    ++ (if readable h filePath then [checkCall h filePath configPath] else []).
Proof.
  destruct (readable h filePath) eqn:Hr.
  - now apply checkFile_run.
  - rewrite checkFile_not_found by assumption. cbn [snd]. now rewrite app_nil_r.
Qed.

(** The commands one request runs. *)
Lemma callTool_log (h : Host) (request : Request) (p : Process) :
  exists probe action,
    execLog (snd (callTool h request p)) = execLog p ++ probe ++ action
    /\ (probe = [] \/ (probe = [versionQuery] /\ checked (valeInstallCache p) = false))
    /\ (action = []
        \/ (exists c, action = [syncCall h c])
        \/ (exists f c, action = [checkCall h f c])).
Proof.
  unfold callTool. rewrite try_catch_dispatch.
  assert (Hprobe : forall q : Process,
            (if checked (valeInstallCache q) then [] else [versionQuery]) = []
            \/ ((if checked (valeInstallCache q) then [] else [versionQuery])
                = [versionQuery] /\ checked (valeInstallCache q) = false)).
  { intros q. destruct (checked (valeInstallCache q)); [now left | now right]. }
  destruct (jsstr_eqb (name request) (lit "vale_status")).
  { exists (if checked (valeInstallCache p) then [] else [versionQuery]), [].
    split; [|split; [apply Hprobe | now left]].
    unfold vale_status_case. rewrite snd_bind_ret, probe_log.
    now rewrite app_nil_r. }
  destruct (jsstr_eqb (name request) (lit "vale_sync")).
  { destruct (arguments request) as [args|].
    2:{ exists [], []. cbn. rewrite app_nil_r. split; [reflexivity|].
        split; now left. }
    rewrite vale_sync_gate.
    destruct (installed (valeInstallCache (snd (checkValeInstalled h p)))).
    - eexists. eexists. split; [|split; [apply Hprobe|]].
      + rewrite snd_bind_ret.
        destruct (syncValeStyles_run h
                    (orElse (config_path args)
                       (valeConfigPath (snd (checkValeInstalled h p))))
                    (snd (checkValeInstalled h p))) as (-> & _).
        rewrite probe_log, <- app_assoc. reflexivity.
      + right. left. now eexists.
    - exists (if checked (valeInstallCache p) then [] else [versionQuery]), [].
      split; [|split; [apply Hprobe | now left]].
      unfold ret. cbn [snd]. now rewrite probe_log, app_nil_r. }
  destruct (jsstr_eqb (name request) (lit "check_file")).
  2:{ exists [], []. cbn. rewrite app_nil_r. split; [reflexivity|].
      split; now left. }
  destruct (arguments request) as [args|].
  2:{ exists [], []. cbn. rewrite app_nil_r. split; [reflexivity|].
      split; now left. }
  destruct (truthy (path args)) eqn:Hp.
  2:{ exists [], []. unfold check_file_case. rewrite Hp. cbn.
      rewrite app_nil_r. split; [reflexivity|]. split; now left. }
  rewrite check_file_gate by assumption.
  destruct (installed (valeInstallCache (snd (checkValeInstalled h p)))).
  - eexists. eexists. split; [|split; [apply Hprobe|]].
    + rewrite snd_bind_ret, checkFile_log, probe_log, <- app_assoc.
      reflexivity.
    + destruct (readable h (interpolate (path args))); [|now left].
      right. right. now do 2 eexists.
  - exists (if checked (valeInstallCache p) then [] else [versionQuery]), [].
    split; [|split; [apply Hprobe | now left]].
    unfold ret. cbn [snd]. now rewrite probe_log, app_nil_r.
Qed.


(** ** What a request leaves behind *)

Lemma probe_config (h : Host) (p : Process) :
  valeConfigPath (snd (checkValeInstalled h p)) = valeConfigPath p.
Proof.
  destruct (checked (valeInstallCache p)) eqn:Hc.
  - now rewrite checkValeInstalled_hit.
  - now rewrite checkValeInstalled_miss.
Qed.

Lemma checkFile_config (h : Host) (filePath : jsstr) (configPath : option jsstr)
  (p : Process) :
  valeConfigPath (snd (checkFile h filePath configPath p)) = valeConfigPath p.
Proof.
  unfold checkFile.
  destruct (readable h filePath); [|reflexivity].
  destruct (truthy configPath); run_statements; unfold bind, execAsync, lift;
    match goal with
    | |- context [exec h ?n ?c] => destruct (exec h n c) as [out err|e]
    end;
    try destruct (truthy (err_stdout e)); try reflexivity;
    unfold ret; cbv beta iota;
    match goal with
    | |- context [parseValeOutput h ?s] => destruct (parseValeOutput h s)
    end; reflexivity.
Qed.

(** No request changes the configuration resolved at start-up: a
    [config_path] argument serves its own request only. *)
Lemma callTool_keeps_config (h : Host) (request : Request) (p : Process) :
  valeConfigPath (snd (callTool h request p)) = valeConfigPath p.
Proof.
  unfold callTool. rewrite try_catch_dispatch.
  destruct (jsstr_eqb (name request) (lit "vale_status")).
  { unfold vale_status_case. now rewrite snd_bind_ret, probe_config. }
  destruct (jsstr_eqb (name request) (lit "vale_sync")).
  { destruct (arguments request) as [args|]; [|reflexivity].
    rewrite vale_sync_gate.
    destruct (installed (valeInstallCache (snd (checkValeInstalled h p)))).
    - rewrite snd_bind_ret.
      destruct (syncValeStyles_run h
                  (orElse (config_path args)
                     (valeConfigPath (snd (checkValeInstalled h p))))
                  (snd (checkValeInstalled h p))) as (_ & -> & _).
      apply probe_config.
    - unfold ret. cbn [snd]. apply probe_config. }
  destruct (jsstr_eqb (name request) (lit "check_file")); [|reflexivity].
  destruct (arguments request) as [args|]; [|reflexivity].
  destruct (truthy (path args)) eqn:Hp.
  2:{ unfold check_file_case. now rewrite Hp. }
  rewrite check_file_gate by assumption.
  destruct (installed (valeInstallCache (snd (checkValeInstalled h p)))).
  - now rewrite snd_bind_ret, checkFile_config, probe_config.
  - unfold ret. cbn [snd]. apply probe_config.
Qed.

(** With the tool known to be missing, a request leaves the process as it
    found it. *)
Lemma callTool_idle (h : Host) (request : Request) (p : Process) :
  checked (valeInstallCache p) = true ->
  installed (valeInstallCache p) = false ->
  snd (callTool h request p) = p.
Proof.
  intros Hc Hi. unfold callTool. rewrite try_catch_dispatch.
  pose proof (checkValeInstalled_hit h p Hc) as Hit.
  destruct (jsstr_eqb (name request) (lit "vale_status")).
  { unfold vale_status_case. now rewrite snd_bind_ret, Hit. }
  destruct (jsstr_eqb (name request) (lit "vale_sync")).
  { destruct (arguments request) as [args|]; [|reflexivity].
    now rewrite vale_sync_gate, Hit; cbn [snd]; rewrite Hi. }
  destruct (jsstr_eqb (name request) (lit "check_file")); [|reflexivity].
  destruct (arguments request) as [args|]; [|reflexivity].
  destruct (truthy (path args)) eqn:Hp.
  2:{ unfold check_file_case. now rewrite Hp. }
  rewrite check_file_gate by assumption.
  now rewrite Hit; cbn [snd]; rewrite Hi.
Qed.

Lemma serve_cons (h : Host) (request : Request) (rest : list Request)
  (p : Process) :
  serve h (request :: rest) p
  = (fst (callTool h request p)
       :: fst (serve h rest (snd (callTool h request p))),
     snd (serve h rest (snd (callTool h request p)))).
Proof.
  cbn [serve]. destruct (callTool h request p) as [r p']. cbn [fst snd].
  now destruct (serve h rest p').
Qed.

(** X16.  A failed probe at start-up is final.  Whatever requests follow,
    and whatever the host would answer to later commands, the process
    stays as start-up left it: the probe is the only command ever run, no
    configuration is resolved, and every request is answered as it would
    have been right after start-up. *)
Theorem failed_probe_is_final (h : Host) (e : ExecError)
  (requests : list Request) :
  exec h 0 versionQuery = Rejected e ->
  snd (serve h requests (startup h)) = startup h
  /\ fst (serve h requests (startup h))
     = map (fun request => fst (callTool h request (startup h))) requests
  /\ execLog (startup h) = [versionQuery]
  /\ installed (valeInstallCache (startup h)) = false
  /\ valeConfigPath (startup h) = None.
Proof.
  intros H. destruct (startup_not_installed h e H) as (Hcfg & Hcache & Hlog).
  assert (Hidle : forall request,
            snd (callTool h request (startup h)) = startup h).
  { intros request. apply callTool_idle; now rewrite Hcache. }
  assert (Hserve : serve h requests (startup h)
                 = (map (fun request => fst (callTool h request (startup h)))
                      requests, startup h)).
  { induction requests as [|request rest IH]; [reflexivity|].
    now rewrite serve_cons, Hidle, IH. }
  rewrite Hserve. cbn [fst snd]. rewrite Hcache.
  repeat split; assumption.
Qed.

(** X16 on a host where no command can be run, for a status request, a
    check and a synchronisation. *)
Lemma failed_probe_is_final_witness :
  snd (serve brokenHost
         [statusRequest None; checkFileRequest (Some sampleFileArguments);
          syncRequest (Some sampleFileArguments)]
         (startup brokenHost))
  = startup brokenHost
  /\ execLog (startup brokenHost) = [versionQuery].
Proof.
  destruct (failed_probe_is_final brokenHost
              (match exec brokenHost 0 versionQuery with
               | Rejected e => e
               | Resolved _ _ =>
                   {| err_stdout := None; err_stderr := None;
                      err_message := None; instanceofError := false |}
               end)
              [statusRequest None; checkFileRequest (Some sampleFileArguments);
               syncRequest (Some sampleFileArguments)])
    as (H1 & _ & H2 & _); [reflexivity|].
  split; assumption.
Defined.

Lemma serve_cache (h : Host) (requests : list Request) (p : Process) :
  checked (valeInstallCache p) = true ->
  valeInstallCache (snd (serve h requests p)) = valeInstallCache p.
Proof.
  revert p. induction requests as [|request rest IH]; intros p Hc;
    [reflexivity|].
  rewrite serve_cons. cbn [snd].
  pose proof (callTool_keeps_cache h request p Hc) as Kc.
  rewrite IH; congruence.
Qed.

(** X17.  Once the installation has been probed, no sequence of requests
    changes what the process remembers: after the last request the cached
    status and the process-wide configuration are what they were before
    the first.  The requests run at most one command each, appended to
    the commands already logged. *)
Theorem serve_keeps_memory (h : Host) (requests : list Request) (p : Process) :
  checked (valeInstallCache p) = true ->
  valeInstallCache (snd (serve h requests p)) = valeInstallCache p
  /\ valeConfigPath (snd (serve h requests p)) = valeConfigPath p
  /\ exists calls, execLog (snd (serve h requests p)) = execLog p ++ calls
                   /\ List.length calls <= List.length requests.
Proof.
  revert p. induction requests as [|request rest IH]; intros p Hc.
  - cbn. repeat split. exists []. now rewrite app_nil_r.
  - rewrite serve_cons. cbn [snd].
    pose proof (callTool_keeps_cache h request p Hc) as Kc.
    pose proof (callTool_keeps_config h request p) as Kf.
    destruct (callTool_log h request p) as (probe & action & E & Hp & Ha).
    destruct (IH (snd (callTool h request p))) as (Ic & If & calls & Il & In');
      [congruence|].
    split; [congruence|]. split; [congruence|].
    exists (probe ++ action ++ calls). split.
    + rewrite Il, E, <- !app_assoc. reflexivity.
    + destruct Hp as [->|[_ Hp]]; [|congruence].
      cbn [app List.length]. rewrite length_app.
      destruct Ha as [->|[(c & ->)|(f & c & ->)]]; cbn [List.length]; lia.
Qed.

(** X17 on a host with the tool and a [.vale.ini], for a status request
    followed by a synchronisation that fails. *)
Lemma serve_keeps_memory_witness :
  checked (valeInstallCache (startup overrideHost)) = true
  /\ valeInstallCache
       (snd (serve overrideHost
               [statusRequest None; syncRequest (Some sampleFileArguments)]
               (startup overrideHost)))
     = valeInstallCache (startup overrideHost)
  /\ valeConfigPath
       (snd (serve overrideHost
               [statusRequest None; syncRequest (Some sampleFileArguments)]
               (startup overrideHost)))
     = valeConfigPath (startup overrideHost).
Proof.
  assert (H : checked (valeInstallCache (startup overrideHost)) = true)
    by (vm_compute; reflexivity).
  split; [exact H|].
  destruct (serve_keeps_memory overrideHost
              [statusRequest None; syncRequest (Some sampleFileArguments)]
              (startup overrideHost) H) as (H1 & H2 & _).
  split; assumption.
Defined.

(** ** Resolving a configuration path *)

(** X18.  On a host whose [path.resolve] yields absolute paths,
    [resolveConfigPath] yields an absolute path and is idempotent; a path
    that is absolute already is returned as it is, whatever the working
    directory. *)
Theorem resolveConfigPath_idempotent (h : Host) (configPath : jsstr) :
  (forall parts, path_isAbsolute h (path_resolve h parts) = true) ->
  path_isAbsolute h (resolveConfigPath h configPath) = true
  /\ resolveConfigPath h (resolveConfigPath h configPath)
     = resolveConfigPath h configPath
  /\ (path_isAbsolute h configPath = true ->
      resolveConfigPath h configPath = configPath).
Proof.
  intros Habs. unfold resolveConfigPath.
  destruct (path_isAbsolute h configPath) eqn:Ha.
  - rewrite Ha. repeat split.
  - rewrite Habs. repeat split. discriminate.
Qed.

(** X18 on the reference host, for a relative name with a step up. *)
Lemma resolveConfigPath_idempotent_witness :
  path_isAbsolute silentHost
    (resolveConfigPath silentHost (lit "../styles/.vale.ini")) = true
  /\ resolveConfigPath silentHost
       (resolveConfigPath silentHost (lit "../styles/.vale.ini"))
     = resolveConfigPath silentHost (lit "../styles/.vale.ini").
Proof.
  destruct (resolveConfigPath_idempotent silentHost (lit "../styles/.vale.ini"))
    as (H1 & H2 & _).
  - intros parts. apply posix_resolve_absolute.
  - split; assumption.
Defined.

(** ** Start-up *)

Lemma bind_returned {A B} (m : M A) (k : A -> M B) (p q : Process) (a : A) :
  m p = (Returned a, q) -> bind m k p = k a q.
Proof. intros E. unfold bind. now rewrite E. Qed.

(** [initializeValeConfig] returns, and leaves the cache and the command
    log as its probe left them. *)
Lemma initializeValeConfig_probe (h : Host) (p : Process) :
  fst (initializeValeConfig h p) = Returned tt
  /\ valeInstallCache (snd (initializeValeConfig h p))
     = valeInstallCache (snd (checkValeInstalled h p))
  /\ execLog (snd (initializeValeConfig h p))
     = execLog (snd (checkValeInstalled h p)).
Proof.
  unfold initializeValeConfig.
  pose proof (checkValeInstalled_returns_cache h p) as R.
  destruct (checkValeInstalled h p) as [r q] eqn:E. cbn [fst snd] in *.
  subst r. rewrite (bind_returned _ _ _ _ _ E).
  destruct (status_installed (statusOfCache (valeInstallCache q)));
    cbn [negb]; cbv iota.
  - unfold loadConfig, verifyConfigFile, findValeIniInWorkingDir.
    cbn [configPath].
    destruct (env_VALE_CONFIG_PATH h) as [[|c r]|]; cbn [truthy interpolate];
      cbv iota;
      try destruct (readable h (resolveConfigPath h (c :: r)));
      destruct (readable h (path_join h [cwd h; lit ".vale.ini"]));
      try destruct (path_join h [cwd h; lit ".vale.ini"]) as [|j0 j];
      cbn [truthy interpolate]; cbv iota;
      run_statements; repeat split.
  - destruct (forEach_logMethod_logs
                (instr_methods (getInstallationInstructions h))) as (lines & El).
    rewrite !bind_console_error.
    rewrite (bind_returned _ _ _ _ _ (El _)).
    rewrite !bind_console_error.
    rewrite snd_console_error, !appendLog_appendLog. repeat split.
Qed.

Lemma action_not_probe (h : Host) (call : ExecCall) :
  (exists c, call = syncCall h c) \/ (exists f c, call = checkCall h f c) ->
  call <> versionQuery.
Proof.
  intros [(c & ->)|(f & c & ->)] E.
  - assert (H : startsWith (lit "vale s") (fst (syncCall h c)) = true).
    { unfold syncCall. cbn [fst].
      destruct (truthy c && readable h (interpolate c));
        [apply startsWith_app|]; reflexivity. }
    rewrite E in H. discriminate H.
  - assert (H : startsWith (lit "vale --o") (fst (checkCall h f c)) = true).
    { unfold checkCall. cbn [fst]. now apply startsWith_app. }
    rewrite E in H. discriminate H.
Qed.

(** The commands a sequence of requests runs once the installation has
    been probed. *)
Lemma serve_log (h : Host) (requests : list Request) (p : Process) :
  checked (valeInstallCache p) = true ->
  exists calls,
    execLog (snd (serve h requests p)) = execLog p ++ calls
    /\ List.length calls <= List.length requests
    /\ Forall (fun call => (exists c, call = syncCall h c)
                           \/ (exists f c, call = checkCall h f c)) calls.
Proof.
  revert p. induction requests as [|request rest IH]; intros p Hc.
  - exists []. cbn. rewrite app_nil_r. repeat split; constructor.
  - rewrite serve_cons. cbn [snd].
    pose proof (callTool_keeps_cache h request p Hc) as Kc.
    destruct (callTool_log h request p) as (probe & action & E & Hp & Ha).
    destruct (IH (snd (callTool h request p))) as (calls & Il & Ilen & Ik);
      [congruence|].
    destruct Hp as [->|[_ Hp]]; [|congruence].
    exists (action ++ calls). rewrite Il, E, <- app_assoc. cbn [app].
    split; [reflexivity|]. rewrite length_app. cbn [List.length].
    destruct Ha as [->|[(c & ->)|(f & c & ->)]]; cbn [List.length app];
      (split; [lia|]); try assumption; constructor; try assumption.
    + left. now exists c.
    + right. now exists f, c.
Qed.

(** X19.  Start-up returns on every host and probes the installation
    once.  From then on the server reports what that probe found: after
    any sequence of requests the cache holds the outcome of the start-up
    probe, [vale_status] answers from it without touching the process,
    and the probe is never run again, each request having run at most one
    command. *)
Theorem status_from_startup_probe (h : Host) (requests : list Request)
  (args : option ToolArguments) :
  let probe := exec h 0 versionQuery in
  let p := snd (serve h requests (startup h)) in
  fst (initializeValeConfig h initialProcess) = Returned tt
  /\ valeInstallCache p = probedCache probe
  /\ callTool h (statusRequest args) p
     = (Returned
          (textResponse
             (JSON_stringify (statusPayload h (statusOfCache (probedCache probe)))
                2)),
        p)
  /\ exists calls,
       execLog p = versionQuery :: calls
       /\ List.length calls <= List.length requests
       /\ ~ In versionQuery calls.
Proof.
  intros probe p.
  destruct (initializeValeConfig_probe h initialProcess) as (Hr & Hcache & Hlog).
  rewrite checkValeInstalled_miss in Hcache, Hlog by reflexivity.
  unfold probedProcess in Hcache, Hlog.
  cbn [snd valeInstallCache execLog initialProcess List.length app]
    in Hcache, Hlog.
  fold (startup h) in Hcache, Hlog. fold probe in Hcache.
  assert (Hc : checked (valeInstallCache (startup h)) = true)
    by (rewrite Hcache; apply probedCache_checked).
  pose proof (serve_cache h requests (startup h) Hc) as Hkeep.
  fold p in Hkeep.
  split; [exact Hr|]. split; [congruence|]. split.
  - rewrite callTool_vale_status. unfold try_catch, vale_status_case.
    rewrite (bind_returned _ _ _ _ _ (checkValeInstalled_hit h p ltac:(congruence))).
    unfold ret. now rewrite Hkeep, Hcache.
  - destruct (serve_log h requests (startup h) Hc) as (calls & El & Elen & Ek).
    fold p in El. exists calls. rewrite El, Hlog.
    split; [reflexivity|]. split; [exact Elen|].
    intros Hin. rewrite Forall_forall in Ek.
    exact (action_not_probe h versionQuery (Ek _ Hin) eq_refl).
Qed.

(** ** Arguments *)

(** X20.  The handler of an advertised tool reads only the arguments the
    tool advertises: two argument objects that agree on the properties
    of its input schema get the same response and leave the same
    process.  So [check_file] takes no [config_path] of its own, and
    [vale_sync] ignores a [path]. *)
Theorem tools_read_advertised_arguments (h : Host) (tool : Tool)
  (a b : ToolArguments) (p : Process) :
  In tool TOOLS ->
  (forall property, In property (tool_properties tool) ->
     argument a (property_name property) = argument b (property_name property)) ->
  callTool h (requestFor tool a) p = callTool h (requestFor tool b) p.
Proof.
  intros Ht Hagree.
  destruct Ht as [<-|[<-|[<-|[]]]]; unfold requestFor; cbn [tool_name].
  - reflexivity.
  - assert (E : config_path a = config_path b)
      by (apply (Hagree _ (or_introl eq_refl))).
    change (callTool h (syncRequest (Some a)) p
            = callTool h (syncRequest (Some b)) p).
    rewrite !callTool_vale_sync. unfold vale_sync_case. now rewrite E.
  - assert (E : path a = path b)
      by (apply (Hagree _ (or_introl eq_refl))).
    change (callTool h (checkFileRequest (Some a)) p
            = callTool h (checkFileRequest (Some b)) p).
    rewrite !callTool_check_file. unfold check_file_case. now rewrite E.
Qed.

(** X20 for [check_file] with and without a [config_path], on a host
    whose only scripted answer goes to the probe: the check command
    fails, and the response is the same error either way. *)
Lemma tools_read_advertised_arguments_witness :
  callTool scenarioHost (checkFileRequest (Some sampleFileArguments))
    initialProcess
  = callTool scenarioHost (checkFileRequest (Some sampleFileOtherConfig))
      initialProcess.
Proof.
  apply (tools_read_advertised_arguments scenarioHost
           (nth 2 TOOLS
              {| tool_name := []; tool_description := [];
                 tool_properties := []; tool_required := None |})
           sampleFileArguments sampleFileOtherConfig initialProcess).
  - right. right. left. reflexivity.
  - intros property [<-|[]]. reflexivity.
Defined.

(** ** The priority of configurations *)

(** C4.  On a host whose tool is found at start-up: the process-wide
    configuration is the override of the environment if that resolves to
    a readable file, else the readable [.vale.ini] of the working
    directory, else none, and an override that cannot be used has been
    warned about.  A [vale_sync] request then runs the command of its
    per-call path when one is given, and of the process-wide
    configuration otherwise; a per-call path that cannot be read is
    warned about and left out of the command, and the process-wide
    configuration does not take its place.  A [check_file] request,
    which has no per-call path, runs the command of the process-wide
    configuration.  Of [path.join] the theorem asks what Node
    guarantees: its result is never the empty string. *)
Theorem config_resolution_priority (h : Host) (args : ToolArguments)
  (stdout stderr : jsstr) :
  exec h 0 versionQuery = Resolved stdout stderr ->
  path_join h [cwd h; lit ".vale.ini"] <> [] ->
  valeConfigPath (startup h) = spec_processWideConfig h
  /\ (forall override,
        env_VALE_CONFIG_PATH h = Some override -> override <> [] ->
        readable h (spec_resolved h override) = false ->
        In (lit "WARNING: VALE_CONFIG_PATH points to non-existent file: "
              ++ override)
          (stderrLog (startup h)))
  /\ execLog (snd (callTool h (syncRequest (Some args)) (startup h)))
     = [versionQuery; syncCall h (spec_configPriority h (config_path args))]
  /\ (forall perCall,
        config_path args = Some perCall -> perCall <> [] ->
        (readable h perCall = true ->
         fst (syncCall h (spec_configPriority h (config_path args)))
         = lit "vale sync --config=" ++ dquote ++ perCall ++ dquote)
        /\ (readable h perCall = false ->
            fst (syncCall h (spec_configPriority h (config_path args)))
            = lit "vale sync"
            /\ In (lit "Warning: Config path " ++ perCall
                     ++ lit " is not accessible")
                 (stderrLog
                    (snd (callTool h (syncRequest (Some args)) (startup h))))))
  /\ (truthy (path args) = true ->
      readable h (interpolate (path args)) = true ->
      execLog (snd (callTool h (checkFileRequest (Some args)) (startup h)))
      = [versionQuery;
         checkCall h (interpolate (path args)) (spec_processWideConfig h)]).
Proof.
  intros H Hjoin.
  destruct (startup_installed h stdout stderr H Hjoin) as (Hc & Hi & Hl & Hw).
  assert (Hit : checkValeInstalled h (startup h)
                = (Returned (statusOfCache (probedCache (Resolved stdout stderr))),
                   startup h)).
  { rewrite checkValeInstalled_hit; rewrite Hi; reflexivity. }
  assert (Hs : snd (callTool h (syncRequest (Some args)) (startup h))
               = snd (syncValeStyles h
                        (spec_configPriority h (config_path args)) (startup h))).
  { rewrite callTool_vale_sync, try_catch_dispatch, vale_sync_gate, Hit.
    cbn [snd]. rewrite Hi. cbn [installed probedCache].
    now rewrite snd_bind_ret, Hc, orElse_priority. }
  destruct (syncValeStyles_run h (spec_configPriority h (config_path args))
              (startup h)) as (Hlog & _ & _ & Hwarn).
  split; [exact Hc|]. split; [exact Hw|]. split; [|split].
  - now rewrite Hs, Hlog, Hl.
  - intros perCall Hpc Hne. rewrite Hs. rewrite Hpc in *.
    destruct perCall as [|c r]; [congruence|].
    cbn [spec_configPriority] in *. unfold syncCall, inaccessibleWarning in *.
    cbn [truthy interpolate andb] in *.
    split; intros Hr; rewrite Hr in *; cbn [fst].
    + rewrite <- ?app_assoc. reflexivity.
    + split; [reflexivity|]. now apply Hwarn.
  - intros Hp Hr.
    rewrite callTool_check_file, try_catch_dispatch,
      (check_file_gate h args (startup h) Hp), Hit.
    cbn [snd]. rewrite Hi. cbn [installed probedCache].
    rewrite snd_bind_ret, checkFile_log, Hr, Hl, Hc. reflexivity.
Qed.

(** C4 on a host whose override names a missing file and whose working
    directory holds [.vale.ini]: the override is warned about and the
    file of the working directory becomes the process-wide
    configuration; a [vale_sync] call that names its own readable
    configuration runs with that one, and a call that names none runs
    with the process-wide one. *)
Lemma config_resolution_priority_witness :
  valeConfigPath (startup layeredHost) = Some (lit "/work/.vale.ini")
  /\ In (lit "WARNING: VALE_CONFIG_PATH points to non-existent file: missing.ini")
       (stderrLog (startup layeredHost))
  /\ execLog (snd (callTool layeredHost (syncRequest (Some perCallArguments))
                     (startup layeredHost)))
     = [ (lit "vale --version", None);
         (lit "vale sync --config=" ++ quoted "/etc/vale.ini",
          Some (lit "/etc")) ]
  /\ execLog (snd (callTool layeredHost (syncRequest (Some noArguments))
                     (startup layeredHost)))
     = [ (lit "vale --version", None);
         (lit "vale sync --config=" ++ quoted "/work/.vale.ini",
          Some (lit "/work")) ].
Proof.
  assert (J : path_join layeredHost [cwd layeredHost; lit ".vale.ini"] <> [])
    by discriminate.
  destruct (config_resolution_priority layeredHost perCallArguments
              (lit "vale version 3.7.1" ++ nl) [] eq_refl J) as (A & B & C & _).
  destruct (config_resolution_priority layeredHost noArguments
              (lit "vale version 3.7.1" ++ nl) [] eq_refl J) as (_ & _ & D & _).
  split; [exact A|]. split.
  - apply (B (lit "missing.ini")); [reflexivity | discriminate | reflexivity].
  - split; [exact C | exact D].
Defined.

(** C4, as it was stated, fails on a host without the tool: the override
    names a missing file and the working directory holds a readable
    [.vale.ini], so resolution as the specification words it falls
    through to that file; but start-up stops at the failed probe, and
    leaves the process without a configuration. *)
Lemma config_unresolved_without_tool :
  spec_processWideConfig toollessHost = Some (lit "/work/.vale.ini")
  /\ valeConfigPath (startup toollessHost) = None.
Proof.
  split; [reflexivity|].
  apply (startup_not_installed toollessHost commandNotFound). reflexivity.
Qed.
